(** * Homepage photo rotation (CDPv4/src/App.js, [getRotatedPhotos])

    A shallow embedding of the rotation selection of the [Homepage]
    component, together with the JavaScript operations it is built from,
    and the properties of the selection. The other components of the same
    file follow: the homepage search and lightbox, the gallery filter and
    selection, the upload form, the comment list and the e-mail check. *)

From Stdlib Require Import String List ZArith Bool Arith Lia.
From Stdlib Require Import Permutation Sorted.
Import ListNotations.

Local Open Scope string_scope.
Local Open Scope nat_scope.
Local Open Scope list_scope.

(** ** The JavaScript fragment used by the selection *)

Module JS.

(** Outcome of evaluating an expression: a value, or a thrown error. *)
Inductive Error : Type := TypeError.

Inductive Completion (A : Type) : Type :=
| Normal (a : A)
| Throw (e : Error).
Arguments Normal {A} a.
Arguments Throw {A} e.

Definition bind {A B} (c : Completion A) (k : A -> Completion B)
  : Completion B :=
  match c with
  | Normal a => k a
  | Throw e => Throw e
  end.

(** A property that holds an array of strings, or is [undefined]. *)
Definition StrArray := option (list string).

(** [v.length]: reading a property of [undefined] throws. *)
Definition length_of (v : StrArray) : Completion nat :=
  match v with
  | Some a => Normal (length a)
  | None => Throw TypeError
  end.

(** [new Set(xs).has(x)], and also the test behind [includes]. *)
Definition Set_has (xs : list string) (x : string) : bool :=
  existsb (String.eqb x) xs.

(** [v.includes(x)]. *)
Definition includes_of (v : StrArray) (x : string) : Completion bool :=
  match v with
  | Some a => Normal (Set_has a x)
  | None => Throw TypeError
  end.

(** [v && e] in a boolean position: [e] is evaluated only when [v] is
    truthy, and every array is truthy. *)
Definition and_then (v : StrArray) (e : Completion bool)
  : Completion bool :=
  match v with
  | Some _ => e
  | None => Normal false
  end.

(** [v || []]. *)
Definition or_empty (v : StrArray) : list string :=
  match v with
  | Some a => a
  | None => []
  end.

(** [Array.from(new Set(xs))]: the elements in order of first insertion. *)
Definition Set_add (s : list string) (x : string) : list string :=
  if Set_has s x then s else s ++ [x].

Definition Array_from_Set (xs : list string) : list string :=
  fold_left Set_add xs [].

(** [xs.filter(f)] for a callback that may throw. *)
Fixpoint filterM {A} (f : A -> Completion bool) (xs : list A)
  : Completion (list A) :=
  match xs with
  | [] => Normal []
  | x :: xs' =>
      bind (f x) (fun b =>
      bind (filterM f xs') (fun r =>
      Normal (if b then x :: r else r)))
  end.

(** [xs.forEach(f)] where the callback updates the state [s]. *)
Fixpoint forEachM {A S} (f : S -> A -> Completion S) (xs : list A) (s : S)
  : Completion S :=
  match xs with
  | [] => Normal s
  | x :: xs' => bind (f s x) (forEachM f xs')
  end.

(** [xs.slice(0, n)] for [n >= 0]. *)
Definition slice0 {A} (n : nat) (xs : list A) : list A := firstn n xs.

(** [xs.sort(cmp)]. The sort is stable and [cmp a b < 0] puts [a] first;
    for a comparator that is a difference of keys the result is the
    unique stable ordering, computed here by insertion. *)
Fixpoint sort_insert {A} (cmp : A -> A -> Z) (x : A) (xs : list A)
  : list A :=
  match xs with
  | [] => [x]
  | y :: xs' =>
      if (cmp x y <=? 0)%Z then x :: y :: xs'
      else y :: sort_insert cmp x xs'
  end.

Definition Array_sort {A} (cmp : A -> A -> Z) (xs : list A) : list A :=
  fold_right (sort_insert cmp) [] xs.

End JS.

Import JS.

Notation "x <- c ;; k" := (JS.bind c (fun x => k))
  (at level 61, c at next level, right associativity).

(** ** Photo documents *)

(** A document of the [photos] collection as the snapshot listener builds
    it: [{ id: doc.id, ...doc.data() }]. [tags] and [timestamp] may be
    missing; a present [timestamp] is given by the milliseconds of
    [timestamp.toDate()], which are negative before the epoch. A document
    without [visibility] behaves like one whose value is not "public". *)
Record Photo : Type := mkPhoto {
  id : string;
  url : string;
  caption : string;
  visibility : string;
  tags : StrArray;
  timestamp : option Z
}.

(** [photo.timestamp?.toDate() || 0], as the number the subtraction sees. *)
Definition dateOrZero (photo : Photo) : Z :=
  match timestamp photo with
  | Some ms => ms
  | None => 0%Z
  end.

(** The comparator of the final sort:
    [(a, b) => (b.timestamp?.toDate() || 0) - (a.timestamp?.toDate() || 0)]. *)
Definition byNewest (a b : Photo) : Z := (dateOrZero b - dateOrZero a)%Z.

Definition maxPhotos : nat := 12.

(** ** The rotation selection *)

Definition getRotatedPhotos (photos : list Photo) : Completion (list Photo) :=
  let publicPhotos :=
    filter (fun photo => String.eqb (visibility photo) "public") photos in
  if length publicPhotos =? 0 then Normal [] else
  let allPlayers :=
    Array_from_Set
      (flat_map (fun photo => or_empty (tags photo)) publicPhotos) in
  teamPhotos <-
    filterM (fun photo =>
      and_then (tags photo)
        (n <- length_of (tags photo) ;; Normal (3 <=? n))) publicPhotos ;;
  individualPhotos <-
    filterM (fun photo =>
      and_then (tags photo)
        (n <- length_of (tags photo) ;; Normal (n <? 3))) publicPhotos ;;
  let rotatedPhotos : list Photo := [] in
  let rotatedPhotos :=
    if 0 <? length teamPhotos
    then rotatedPhotos ++ slice0 (Nat.min (length teamPhotos) 6) teamPhotos
    else rotatedPhotos in
  let featuredPlayers :=
    flat_map (fun photo => or_empty (tags photo)) rotatedPhotos in
  let remainingPlayers :=
    filter (fun player => negb (Set_has featuredPlayers player)) allPlayers in
  rotatedPhotos <-
    forEachM (fun rotatedPhotos player =>
      playerPhotos <-
        filterM (fun photo =>
          and_then (tags photo) (includes_of (tags photo) player))
          individualPhotos ;;
      Normal (match playerPhotos with
              | first :: _ => rotatedPhotos ++ [first]
              | [] => rotatedPhotos
              end)) remainingPlayers rotatedPhotos ;;
  let rotatedPhotos :=
    if length rotatedPhotos <? maxPhotos then
      let usedPhotoIds := map id rotatedPhotos in
      let additionalPhotos :=
        slice0 (maxPhotos - length rotatedPhotos)
          (filter (fun photo => negb (Set_has usedPhotoIds (id photo)))
             individualPhotos) in
      rotatedPhotos ++ additionalPhotos
    else rotatedPhotos in
  Normal (Array_sort byNewest rotatedPhotos).

(** The component state of [Homepage] that [getRotatedPhotos] closes over,
    and the render-time call [const rotatedPhotos = getRotatedPhotos()]. *)
Record Homepage : Type := mkHomepage {
  photos : list Photo;
  loading : bool;
  message : string;
  selectedPhotoForLightbox : option Photo;
  isLightboxOpen : bool;
  currentPhotoIndex : Z;
  searchQuery : string;
  showSearchDropdown : bool
}.

Definition rotatedPhotos (st : Homepage) : Completion (list Photo) :=
  getRotatedPhotos (photos st).

(** ** The steps of the selection as pure functions

    The guards [photo.tags && ...] keep every property read from throwing,
    so each callback has a boolean value; the steps below are what the
    body of [getRotatedPhotos] computes with those values. *)

Definition isPublic (photo : Photo) : bool :=
  String.eqb (visibility photo) "public".

Definition isTeam (photo : Photo) : bool :=
  match tags photo with
  | Some a => 3 <=? length a
  | None => false
  end.

Definition isIndividual (photo : Photo) : bool :=
  match tags photo with
  | Some a => length a <? 3
  | None => false
  end.

Definition hasPlayer (player : string) (photo : Photo) : bool :=
  match tags photo with
  | Some a => Set_has a player
  | None => false
  end.

Definition players (l : list Photo) : list string :=
  flat_map (fun photo => or_empty (tags photo)) l.

Definition seed (publicPhotos : list Photo) : list Photo :=
  firstn 6 (filter isTeam publicPhotos).

Definition coverStep (individualPhotos rotated : list Photo)
    (player : string) : list Photo :=
  match filter (hasPlayer player) individualPhotos with
  | first :: _ => rotated ++ [first]
  | [] => rotated
  end.

Definition coverage (individualPhotos : list Photo)
    (remainingPlayers : list string) (rotated : list Photo) : list Photo :=
  fold_left (coverStep individualPhotos) remainingPlayers rotated.

Definition fill (individualPhotos rotated : list Photo) : list Photo :=
  if length rotated <? maxPhotos then
    rotated ++
    firstn (maxPhotos - length rotated)
      (filter (fun photo => negb (Set_has (map id rotated) (id photo)))
         individualPhotos)
  else rotated.

Definition remaining (publicPhotos : list Photo) : list string :=
  filter (fun player => negb (Set_has (players (seed publicPhotos)) player))
    (Array_from_Set (players publicPhotos)).

(** The working selection just before the final sort. *)
Definition selection (photos : list Photo) : list Photo :=
  let publicPhotos := filter isPublic photos in
  let individualPhotos := filter isIndividual publicPhotos in
  fill individualPhotos
    (coverage individualPhotos (remaining publicPhotos) (seed publicPhotos)).

(** A comparator that subtracts sort keys, larger key first, and the
    order it sorts into. [byNewest] is [keyCompare dateOrZero]. *)
Definition keyCompare {A} (key : A -> Z) (a b : A) : Z := (key b - key a)%Z.

Definition newerFirst {A} (key : A -> Z) (a b : A) : Prop :=
  (key b <= key a)%Z.

(** ** Sample snapshots *)

Definition publicPhoto (i : string) (t : StrArray) (ts : option Z) : Photo :=
  mkPhoto i ("https://photos.example/" ++ i)%string "" "public" t ts.

Definition privatePhoto (i : string) (t : StrArray) (ts : option Z) : Photo :=
  mkPhoto i ("https://photos.example/" ++ i)%string "" "private" t ts.

(** One photo of two players. *)
Definition duoPhoto : Photo := publicPhoto "p1" (Some ["A"; "B"]) (Some 1000%Z).

(** Thirteen photos, each of one player of its own. *)
Definition soloPhotos : list Photo :=
  map (fun n => publicPhoto ("s" ++ n)%string (Some [n]) (Some 1000%Z))
    ["a"; "b"; "c"; "d"; "e"; "f"; "g"; "h"; "i"; "j"; "k"; "l"; "m"].

(** Seven team photos of four players in all; only the last shows "D". *)
Definition teamOfFour : list Photo :=
  map (fun n =>
         publicPhoto ("t" ++ n)%string (Some ["A"; "B"; "C"]) (Some 1000%Z))
    ["1"; "2"; "3"; "4"; "5"; "6"]
  ++ [publicPhoto "t7" (Some ["A"; "B"; "D"]) (Some 1000%Z)].

(** Seven team photos of four players each, all 28 players distinct. *)
Definition sevenTeams : list Photo :=
  map (fun n =>
         publicPhoto ("t" ++ n)%string
           (Some [n ++ "a"; n ++ "b"; n ++ "c"; n ++ "d"]%string) (Some 1000%Z))
    ["1"; "2"; "3"; "4"; "5"; "6"; "7"].

(** A public document without a [tags] field. *)
Definition untaggedPhoto : Photo := publicPhoto "u1" None (Some 1000%Z).

(** A photo dated one millisecond before the epoch, and one whose server
    timestamp is still pending. *)
Definition oldPhoto : Photo := publicPhoto "o1" (Some ["A"]) (Some (-1)%Z).
Definition pendingPhoto : Photo := publicPhoto "n1" (Some ["B"]) None.

Definition emptyHomepage (l : list Photo) : Homepage :=
  mkHomepage l false "" None false 0%Z "" false.

(** ** The rest of the photo application *)

(** *** More of the JavaScript fragment *)

(** [s.includes(sub)] on strings: [sub] occurs somewhere in [s]. *)
Fixpoint str_includes (s sub : string) : bool :=
  String.prefix sub s
  || match s with
     | EmptyString => false
     | String _ s' => str_includes s' sub
     end.

(** [v.some(f)]. *)
Definition some_of (v : StrArray) (f : string -> bool) : Completion bool :=
  match v with
  | Some a => Normal (existsb f a)
  | None => Throw TypeError
  end.

(** The truth value a filter callback hands back. *)
Definition returned (c : Completion bool) : bool :=
  match c with
  | Normal b => b
  | Throw _ => false
  end.

(** [prev => prev.includes(x) ? prev.filter(y => y !== x) : [...prev, x]],
    the state updater of [togglePlayer] and of [togglePhotoSelection]. *)
Definition toggle (x : string) (prev : list string) : list string :=
  if Set_has prev x
  then filter (fun y => negb (String.eqb y x)) prev
  else prev ++ [x].

(** The search test of both photo lists,
    [!searchQuery || (photo.caption && photo.caption.toLowerCase()
       .includes(searchQuery.toLowerCase())) || (photo.tags &&
       photo.tags.some(tag => tag.toLowerCase()
       .includes(searchQuery.toLowerCase())))],
    as the truth value the filter sees. [toLowerCase] is the string method,
    passed in; a missing caption behaves like the empty one. *)
Definition searchMatch (toLowerCase : string -> string)
    (searchQuery : string) (photo : Photo) : Completion bool :=
  if String.eqb searchQuery "" then Normal true
  else if negb (String.eqb (caption photo) "")
          && str_includes (toLowerCase (caption photo))
               (toLowerCase searchQuery)
  then Normal true
  else and_then (tags photo)
         (some_of (tags photo)
            (fun tag =>
               str_includes (toLowerCase tag) (toLowerCase searchQuery))).

(** *** The roster *)

Module Players.

Record Player : Type := mkPlayer { id : string; name : string }.

Definition PLAYERS : list Player :=
  [ mkPlayer "1" "Asher Joslin-White";
    mkPlayer "2" "Ashton McCarthy";
    mkPlayer "3" "Brian Aguliar";
    mkPlayer "4" "Cole Thomas";
    mkPlayer "5" "Dylan Johnson";
    mkPlayer "6" "Ethan Heiss";
    mkPlayer "7" "Hudson Brunton";
    mkPlayer "8" "Jared Landau";
    mkPlayer "9" "Matthew Covington";
    mkPlayer "10" "Maxwell Millay";
    mkPlayer "11" "Michael Woodruff";
    mkPlayer "12" "Reed Kleamovich";
    mkPlayer "13" "Thad Clark" ].

End Players.

(** *** Homepage: search and lightbox *)

Module Home.

(** [rotatedPhotos.filter(photo => { if (!searchQuery) return true; ... })]. *)
Definition filteredPhotos (toLowerCase : string -> string) (st : Homepage)
  : Completion (list Photo) :=
  rotated <- rotatedPhotos st ;;
  filterM (searchMatch toLowerCase (searchQuery st)) rotated.

(** The autocomplete list under the search box, rendered under
    [showSearchDropdown && searchQuery &&]; no entry otherwise. *)
Definition suggestions (toLowerCase : string -> string) (st : Homepage)
  : list Players.Player :=
  if (showSearchDropdown st && negb (String.eqb (searchQuery st) ""))%bool
  then filter (fun player =>
                 str_includes (toLowerCase (Players.name player))
                   (toLowerCase (searchQuery st))) Players.PLAYERS
  else [].

(** Clicking a suggestion: [setSearchQuery(player.name)] and
    [setShowSearchDropdown(false)]. *)
Definition pickSuggestion (player : Players.Player) (st : Homepage)
  : Homepage :=
  mkHomepage (photos st) (loading st) (message st)
    (selectedPhotoForLightbox st) (isLightboxOpen st) (currentPhotoIndex st)
    (Players.name player) false.

Definition openLightbox (photo : Photo) (index : Z) (st : Homepage)
  : Homepage :=
  mkHomepage (photos st) (loading st) (message st)
    (Some photo) true index (searchQuery st) (showSearchDropdown st).

Definition closeLightbox (st : Homepage) : Homepage :=
  mkHomepage (photos st) (loading st) (message st)
    None false (currentPhotoIndex st) (searchQuery st)
    (showSearchDropdown st).

(** [navigateLightbox], over the [filteredPhotos] of the current render. *)
Definition navigateLightbox (filteredPhotos : list Photo) (newIndex : Z)
    (st : Homepage) : Homepage :=
  if ((0 <=? newIndex)%Z
      && (newIndex <? Z.of_nat (length filteredPhotos))%Z)%bool
  then mkHomepage (photos st) (loading st) (message st)
         (nth_error filteredPhotos (Z.to_nat newIndex))
         (isLightboxOpen st) newIndex (searchQuery st)
         (showSearchDropdown st)
  else st.

(** A series of calls of [navigateLightbox] during one render. *)
Definition navigateAll (filteredPhotos : list Photo) (requests : list Z)
    (st : Homepage) : Homepage :=
  fold_left (fun s i => navigateLightbox filteredPhotos i s) requests st.

(** The two arrow buttons of the lightbox:
    [onNavigate(currentIndex - 1)] and [onNavigate(currentIndex + 1)]. *)
Definition previous (filteredPhotos : list Photo) (st : Homepage)
  : Homepage :=
  navigateLightbox filteredPhotos (currentPhotoIndex st - 1)%Z st.

Definition next (filteredPhotos : list Photo) (st : Homepage) : Homepage :=
  navigateLightbox filteredPhotos (currentPhotoIndex st + 1)%Z st.

End Home.

(** *** PhotoGallery *)

Module Gallery.

(** A photo document with the fields the gallery reads besides those of
    [Photo]. *)
Record Doc : Type := mkDoc {
  photo : Photo;
  uploadedBy : option string;
  fileName : option string
}.

Record State : Type := mkState {
  photos : list Doc;
  loading : bool;
  message : string;
  selectedPhotos : list string;
  showDeleteConfirm : bool;
  selectedPhotoForLightbox : option Doc;
  isLightboxOpen : bool;
  currentPhotoIndex : Z;
  tagFilter : string;
  searchQuery : string;
  showSearchDropdown : bool
}.

(** [(a, b) => (b.timestamp?.toDate() || 0) - (a.timestamp?.toDate() || 0)]
    on gallery documents. *)
Definition byNewest (a b : Doc) : Z :=
  (dateOrZero (photo b) - dateOrZero (photo a))%Z.

(** The snapshot listener: sort the fetched documents, [setPhotos],
    [setLoading(false)]. *)
Definition onSnapshot (fetchedPhotos : list Doc) (st : State) : State :=
  mkState (Array_sort byNewest fetchedPhotos) false (message st)
    (selectedPhotos st) (showDeleteConfirm st)
    (selectedPhotoForLightbox st) (isLightboxOpen st) (currentPhotoIndex st)
    (tagFilter st) (searchQuery st) (showSearchDropdown st).

(** [userId && photo.uploadedBy === userId], as a truth value; [userId]
    is [null] when nobody is signed in. *)
Definition isOwner (userId : option string) (d : Doc) : bool :=
  match userId with
  | Some u =>
      negb (String.eqb u "")
      && match uploadedBy d with
         | Some o => String.eqb o u
         | None => false
         end
  | None => false
  end.

Definition filteredPhotos (toLowerCase : string -> string)
    (userId : option string) (st : State) : Completion (list Doc) :=
  filterM (fun d =>
    let isOwner := isOwner userId d in
    let isVisible :=
      String.eqb (visibility (photo d)) "public" || isOwner in
    tagMatch <-
      (if String.eqb (tagFilter st) "" then Normal true
       else and_then (tags (photo d))
              (includes_of (tags (photo d)) (tagFilter st))) ;;
    searchMatch <- searchMatch toLowerCase (searchQuery st) (photo d) ;;
    Normal (isVisible && tagMatch && searchMatch)) (photos st).

(** [Array.from(new Set(photos.flatMap(photo => photo.tags || [])))]. *)
Definition allTags (st : State) : list string :=
  Array_from_Set (flat_map (fun d => or_empty (tags (photo d))) (photos st)).

Definition togglePhotoSelection (photoId : string) (st : State) : State :=
  mkState (photos st) (loading st) (message st)
    (toggle photoId (selectedPhotos st)) (showDeleteConfirm st)
    (selectedPhotoForLightbox st) (isLightboxOpen st) (currentPhotoIndex st)
    (tagFilter st) (searchQuery st) (showSearchDropdown st).

Definition clearSelection (st : State) : State :=
  mkState (photos st) (loading st) (message st) [] (showDeleteConfirm st)
    (selectedPhotoForLightbox st) (isLightboxOpen st) (currentPhotoIndex st)
    (tagFilter st) (searchQuery st) (showSearchDropdown st).

End Gallery.

(** *** PhotoUpload *)

Module Upload.

(** The form state; [file] holds the name of the chosen file. *)
Record State : Type := mkState {
  file : option string;
  caption : string;
  uploading : bool;
  message : string;
  visibility : string;
  selectedPlayers : list string;
  showPlayerDropdown : bool;
  playerSearch : string
}.

Definition initial : State := mkState None "" false "" "public" [] false "".

Definition setSelectedPlayers (f : list string -> list string) (st : State)
  : State :=
  mkState (file st) (caption st) (uploading st) (message st) (visibility st)
    (f (selectedPlayers st)) (showPlayerDropdown st) (playerSearch st).

Definition setPlayerSearch (s : string) (st : State) : State :=
  mkState (file st) (caption st) (uploading st) (message st) (visibility st)
    (selectedPlayers st) (showPlayerDropdown st) s.

Definition setShowPlayerDropdown (b : bool) (st : State) : State :=
  mkState (file st) (caption st) (uploading st) (message st) (visibility st)
    (selectedPlayers st) b (playerSearch st).

Definition setCaption (s : string) (st : State) : State :=
  mkState (file st) s (uploading st) (message st) (visibility st)
    (selectedPlayers st) (showPlayerDropdown st) (playerSearch st).

Definition setVisibility (s : string) (st : State) : State :=
  mkState (file st) (caption st) (uploading st) (message st) s
    (selectedPlayers st) (showPlayerDropdown st) (playerSearch st).

Definition setFile (f : string) (st : State) : State :=
  mkState (Some f) (caption st) (uploading st) (message st) (visibility st)
    (selectedPlayers st) (showPlayerDropdown st) (playerSearch st).

Definition togglePlayer (player : Players.Player) (st : State) : State :=
  setSelectedPlayers (toggle (Players.name player)) st.

Definition removePlayer (playerName : string) (st : State) : State :=
  setSelectedPlayers
    (filter (fun name => negb (String.eqb name playerName))) st.

Definition filteredPlayers (toLowerCase : string -> string) (st : State)
  : list Players.Player :=
  filter (fun player =>
            str_includes (toLowerCase (Players.name player))
              (toLowerCase (playerSearch st))
            && negb (Set_has (selectedPlayers st) (Players.name player)))
    Players.PLAYERS.

(** The click on an entry of the player dropdown. *)
Definition pickPlayer (player : Players.Player) (st : State) : State :=
  setShowPlayerDropdown false (setPlayerSearch "" (togglePlayer player st)).

(** The argument of [addDoc]; the server fills in [timestamp].
    [newCaption] and [newVisibility] are its [caption] and [visibility]. *)
Record NewPhoto : Type := mkNewPhoto {
  url : string;
  newCaption : string;
  uploadedBy : string;
  fileName : string;
  likesCount : Z;
  newVisibility : string;
  tags : list string
}.

(** Whether the awaited storage and database calls went through. *)
Inductive Outcome : Type :=
| Stored (downloadURL : string)
| Failed (errorMessage : string).

(** [handleUpload], from the click to the end of the handler: the state it
    leaves and the document it has added, if any. [now] is [Date.now()]. *)
Definition handleUpload (userId : option string) (isAuthReady : bool)
    (now : string) (outcome : Outcome) (st : State)
  : State * option NewPhoto :=
  match file st, userId, isAuthReady with
  | Some fileObj, Some uid, true =>
      if String.eqb uid "" then
        (mkState (file st) (caption st) (uploading st)
           "Please select a file and ensure you are logged in."
           (visibility st) (selectedPlayers st) (showPlayerDropdown st)
           (playerSearch st), None)
      else
        match outcome with
        | Stored downloadURL =>
            let fileName := (now ++ "_" ++ fileObj)%string in
            (mkState None "" false "Photo uploaded successfully!" "public"
               [] (showPlayerDropdown st) "",
             Some (mkNewPhoto downloadURL (caption st) uid fileName 0%Z
                     (visibility st) (selectedPlayers st)))
        | Failed errorMessage =>
            (mkState (file st) (caption st) false
               ("Error uploading photo: " ++ errorMessage)%string
               (visibility st) (selectedPlayers st) (showPlayerDropdown st)
               (playerSearch st), None)
        end
  | _, _, _ =>
      (mkState (file st) (caption st) (uploading st)
         "Please select a file and ensure you are logged in."
         (visibility st) (selectedPlayers st) (showPlayerDropdown st)
         (playerSearch st), None)
  end.

(** The document as a snapshot listener reads it back:
    [{ id: doc.id, ...doc.data() }]. *)
Definition stored (docId : string) (serverTime : option Z) (n : NewPhoto)
  : Gallery.Doc :=
  Gallery.mkDoc
    (mkPhoto docId (url n) (newCaption n) (newVisibility n) (Some (tags n))
       serverTime)
    (Some (uploadedBy n)) (Some (fileName n)).

(** What the rendered form lets a user do. *)
Inductive step (toLowerCase : string -> string) : State -> State -> Prop :=
| step_file st f : step toLowerCase st (setFile f st)
| step_caption st s : step toLowerCase st (setCaption s st)
| step_visibility st v :
    v = "public" \/ v = "private" ->
    step toLowerCase st (setVisibility v st)
| step_search st s : step toLowerCase st (setPlayerSearch s st)
| step_focus st : step toLowerCase st (setShowPlayerDropdown true st)
| step_pick st player :
    showPlayerDropdown st = true ->
    In player (filteredPlayers toLowerCase st) ->
    step toLowerCase st (pickPlayer player st)
| step_remove st playerName :
    In playerName (selectedPlayers st) ->
    step toLowerCase st (removePlayer playerName st)
| step_upload st userId isAuthReady now outcome :
    step toLowerCase st
      (fst (handleUpload userId isAuthReady now outcome st)).

Inductive reachable (toLowerCase : string -> string) : State -> Prop :=
| reach_initial : reachable toLowerCase initial
| reach_step st st' :
    reachable toLowerCase st -> step toLowerCase st st' ->
    reachable toLowerCase st'.

End Upload.

(** *** Lightbox: the comment list *)

Module Lightbox.

Record Comment : Type := mkComment {
  id : string;
  text : string;
  commentedBy : string;
  timestamp : option Z
}.

Definition dateOrZero (c : Comment) : Z :=
  match timestamp c with
  | Some ms => ms
  | None => 0%Z
  end.

(** [(a, b) => (a.timestamp?.toDate() || 0) - (b.timestamp?.toDate() || 0)]. *)
Definition byOldest (a b : Comment) : Z := (dateOrZero a - dateOrZero b)%Z.

(** The comments listener: the list handed to [setComments]. *)
Definition onCommentsSnapshot (fetchedComments : list Comment)
  : list Comment :=
  Array_sort byOldest fetchedComments.

End Lightbox.

(** *** Auth: the e-mail check *)

Module Regex.

(** Regular expressions over UTF-16 code units, matched against a whole
    string as [/^...$/.test(s)] does. *)
Inductive re : Type :=
| Void
| Eps
| Class (p : N -> bool)
| Seq (r1 r2 : re)
| Alt (r1 r2 : re)
| Star (r : re).

Definition Chr (c : N) : re := Class (N.eqb c).
Definition Plus (r : re) : re := Seq r (Star r).

Fixpoint nullable (r : re) : bool :=
  match r with
  | Void => false
  | Eps => true
  | Class _ => false
  | Seq r1 r2 => nullable r1 && nullable r2
  | Alt r1 r2 => nullable r1 || nullable r2
  | Star _ => true
  end.

Fixpoint deriv (c : N) (r : re) : re :=
  match r with
  | Void => Void
  | Eps => Void
  | Class p => if p c then Eps else Void
  | Seq r1 r2 =>
      if nullable r1
      then Alt (Seq (deriv c r1) r2) (deriv c r2)
      else Seq (deriv c r1) r2
  | Alt r1 r2 => Alt (deriv c r1) (deriv c r2)
  | Star r1 => Seq (deriv c r1) (Star r1)
  end.

Fixpoint test (r : re) (s : list N) : bool :=
  match s with
  | [] => nullable r
  | c :: s' => test (deriv c r) s'
  end.

(** The strings a regular expression denotes. *)
Inductive Matches : re -> list N -> Prop :=
| MEps : Matches Eps []
| MClass p c : p c = true -> Matches (Class p) [c]
| MSeq r1 r2 s1 s2 :
    Matches r1 s1 -> Matches r2 s2 -> Matches (Seq r1 r2) (s1 ++ s2)
| MAltL r1 r2 s : Matches r1 s -> Matches (Alt r1 r2) s
| MAltR r1 r2 s : Matches r2 s -> Matches (Alt r1 r2) s
| MStarNil r : Matches (Star r) []
| MStarApp r s1 s2 :
    Matches r s1 -> Matches (Star r) s2 -> Matches (Star r) (s1 ++ s2).

End Regex.

Module Auth.

(** The code units [\s] matches: white space and line terminators. *)
Definition isWhiteSpace (c : N) : bool :=
  existsb (N.eqb c)
    [9; 10; 11; 12; 13; 32; 160; 5760; 8192; 8193; 8194; 8195; 8196; 8197;
     8198; 8199; 8200; 8201; 8202; 8232; 8233; 8239; 8287; 12288; 65279]%N.

Definition at_sign : N := 64%N.
Definition dot : N := 46%N.

(** [[^\s@]]. *)
Definition plain (c : N) : bool := negb (isWhiteSpace c || N.eqb c at_sign).

(** [/^[^\s@]+@[^\s@]+\.[^\s@]+$/]. *)
Definition emailPattern : Regex.re :=
  Regex.Seq (Regex.Plus (Regex.Class plain))
    (Regex.Seq (Regex.Chr at_sign)
       (Regex.Seq (Regex.Plus (Regex.Class plain))
          (Regex.Seq (Regex.Chr dot) (Regex.Plus (Regex.Class plain))))).

Definition isValidEmail (email : list N) : bool :=
  Regex.test emailPattern email.

Record AuthError : Type := mkAuthError { code : string; message : string }.

(** The calls to the authentication service. *)
Inductive Request : Type :=
| SignIn (email password : list N)
| CreateUser (email password : list N).

(** The message of the [catch] branch. *)
Definition friendlyMsg (error : AuthError) : string :=
  if String.eqb (code error) "auth/user-not-found"
  then "No user found with this email."
  else if String.eqb (code error) "auth/wrong-password"
  then "Incorrect password."
  else if String.eqb (code error) "auth/invalid-email"
  then "Invalid email address."
  else if String.eqb (code error) "auth/email-already-in-use"
  then "This email is already registered."
  else if String.eqb (code error) "auth/weak-password"
  then "Password should be at least 6 characters."
  else if String.eqb (code error) "auth/missing-password"
  then "Password is required."
  else message error.

(** [handleAuth]: the message it leaves and the requests it has sent.
    [service] answers a request with the error it rejects it with, if any. *)
Definition handleAuth (service : Request -> option AuthError)
    (isLogin : bool) (email password : list N) : string * list Request :=
  match email, password with
  | [], _ | _, [] => ("Email and password are required.", [])
  | _, _ =>
      if negb (isValidEmail email)
      then ("Please enter a valid email address.", [])
      else
        let request :=
          if isLogin then SignIn email password
          else CreateUser email password in
        match service request with
        | None => ("", [request])
        | Some error => (friendlyMsg error, [request])
        end
  end.

End Auth.

(** *** Sample gallery and form states *)

Definition galleryDocs : list Gallery.Doc :=
  [ Gallery.mkDoc (publicPhoto "g1" (Some ["A"]) (Some 5%Z))
      (Some "alice") (Some "5_a.jpg");
    Gallery.mkDoc (privatePhoto "g2" (Some ["B"]) (Some 9%Z))
      (Some "bob") None;
    Gallery.mkDoc (privatePhoto "g3" (Some ["A"; "C"]) None)
      (Some "alice") (Some "7_c.jpg") ].

Definition galleryState (docs : list Gallery.Doc)
    (tagFilter searchQuery : string) : Gallery.State :=
  Gallery.mkState docs false "" [] false None false 0%Z tagFilter
    searchQuery false.

(** A form with a file chosen and one player picked from the dropdown. *)
Definition pickedForm : Upload.State :=
  Upload.pickPlayer (Players.mkPlayer "4" "Cole Thomas")
    (Upload.setShowPlayerDropdown true
       (Upload.setFile "team.jpg" Upload.initial)).

(** *** Arrays by reference

    The arrays of photo objects that [getRotatedPhotos] handles, in a store:
    [filter] and [slice] make new arrays, [push] and [sort] change the
    array they are called on, and the [photos] state is one of the arrays.
    The photo objects themselves are never written to and stay values. *)

Module Heap.

Definition ref : Type := nat.

(** The array at each address. *)
Definition Store : Type := list (list Photo).

(** A computation on the store that may throw. *)
Definition M (A : Type) : Type := Store -> Completion (A * Store).

Definition ret {A} (a : A) : M A := fun h => Normal (a, h).

Definition bind {A B} (c : M A) (k : A -> M B) : M B :=
  fun h =>
    match c h with
    | Normal (a, h') => k a h'
    | Throw e => Throw e
    end.

Definition lift {A} (c : Completion A) : M A :=
  fun h =>
    match c with
    | Normal a => Normal (a, h)
    | Throw e => Throw e
    end.

(** A new array. *)
Definition alloc (xs : list Photo) : M ref :=
  fun h => Normal (length h, h ++ [xs]).

Definition read (r : ref) : M (list Photo) :=
  fun h =>
    match nth_error h r with
    | Some xs => Normal (xs, h)
    | None => Throw TypeError
    end.

Fixpoint update (r : nat) (xs : list Photo) (h : Store) : Store :=
  match h, r with
  | [], _ => []
  | _ :: h', 0 => xs :: h'
  | ys :: h', S r' => ys :: update r' xs h'
  end.

Definition write (r : ref) (xs : list Photo) : M unit :=
  fun h =>
    match nth_error h r with
    | Some _ => Normal (tt, update r xs h)
    | None => Throw TypeError
    end.

End Heap.

Notation "x <~ c ;; k" := (Heap.bind c (fun x => k))
  (at level 61, c at next level, right associativity).

Module HeapArray.
Import Heap.

(** [a.filter(f)]: a new array. *)
Definition filter (a : ref) (f : Photo -> Completion bool) : M ref :=
  xs <~ read a ;;
  ys <~ lift (filterM f xs) ;;
  alloc ys.

(** [a.slice(0, n)]: a new array. *)
Definition slice (a : ref) (n : nat) : M ref :=
  xs <~ read a ;;
  alloc (slice0 n xs).

(** [a.length]. *)
Definition length (a : ref) : M nat :=
  xs <~ read a ;;
  ret (List.length xs).

(** [a.push(...b)]: [a] itself grows by the elements of [b]. *)
Definition pushAll (a b : ref) : M unit :=
  items <~ read b ;;
  xs <~ read a ;;
  write a (xs ++ items).

(** [if (b.length > 0) a.push(b[0])]. *)
Definition pushFirst (a b : ref) : M unit :=
  items <~ read b ;;
  match items with
  | first :: _ => xs <~ read a ;; write a (xs ++ [first])
  | [] => ret tt
  end.

(** [a.sort(cmp)]: sorts [a] in place and returns [a]. *)
Definition sort (a : ref) (cmp : Photo -> Photo -> Z) : M ref :=
  xs <~ read a ;;
  _ <~ write a (Array_sort cmp xs) ;;
  ret a.

(** [a.flatMap(photo => photo.tags || [])], an array of strings. *)
Definition flatMapTags (a : ref) : M (list string) :=
  xs <~ read a ;;
  ret (flat_map (fun photo => or_empty (tags photo)) xs).

(** [a.map(p => p.id)], an array of strings. *)
Definition mapId (a : ref) : M (list string) :=
  xs <~ read a ;;
  ret (map id xs).

(** [players.forEach(f)]. *)
Fixpoint forEach (players : list string) (f : string -> M unit) : M unit :=
  match players with
  | [] => ret tt
  | player :: rest => _ <~ f player ;; forEach rest f
  end.

End HeapArray.

(** [getRotatedPhotos] on the store; [photos] is the address of the
    component's [photos] array and the result the address of the array it
    returns. *)
Definition getRotatedPhotosIn (photos : Heap.ref) : Heap.M Heap.ref :=
  publicPhotos <~
    HeapArray.filter photos
      (fun photo => Normal (String.eqb (visibility photo) "public")) ;;
  publicLength <~ HeapArray.length publicPhotos ;;
  if publicLength =? 0 then Heap.alloc [] else
  allTags <~ HeapArray.flatMapTags publicPhotos ;;
  let allPlayers := Array_from_Set allTags in
  teamPhotos <~
    HeapArray.filter publicPhotos
      (fun photo =>
         and_then (tags photo)
           (n <- length_of (tags photo) ;; Normal (3 <=? n))) ;;
  individualPhotos <~
    HeapArray.filter publicPhotos
      (fun photo =>
         and_then (tags photo)
           (n <- length_of (tags photo) ;; Normal (n <? 3))) ;;
  rotatedPhotos <~ Heap.alloc [] ;;
  teamLength <~ HeapArray.length teamPhotos ;;
  _ <~ (if 0 <? teamLength
        then firstTeams <~
               HeapArray.slice teamPhotos (Nat.min teamLength 6) ;;
             HeapArray.pushAll rotatedPhotos firstTeams
        else Heap.ret tt) ;;
  featuredPlayers <~ HeapArray.flatMapTags rotatedPhotos ;;
  let remainingPlayers :=
    filter (fun player => negb (Set_has featuredPlayers player)) allPlayers in
  _ <~ HeapArray.forEach remainingPlayers
         (fun player =>
            playerPhotos <~
              HeapArray.filter individualPhotos
                (fun photo =>
                   and_then (tags photo) (includes_of (tags photo) player)) ;;
            HeapArray.pushFirst rotatedPhotos playerPhotos) ;;
  rotatedLength <~ HeapArray.length rotatedPhotos ;;
  _ <~ (if rotatedLength <? maxPhotos
        then usedPhotoIds <~ HeapArray.mapId rotatedPhotos ;;
             unused <~
               HeapArray.filter individualPhotos
                 (fun photo =>
                    Normal (negb (Set_has usedPhotoIds (id photo)))) ;;
             additionalPhotos <~
               HeapArray.slice unused (maxPhotos - rotatedLength) ;;
             HeapArray.pushAll rotatedPhotos additionalPhotos
        else Heap.ret tt) ;;
  HeapArray.sort rotatedPhotos byNewest.

(** Weakest precondition of a store computation: it returns normally and
    the result and final store satisfy [Q]. *)
Definition wp {A} (c : Heap.M A) (Q : A -> Heap.Store -> Prop)
    (h : Heap.Store) : Prop :=
  match c h with
  | Normal (a, h') => Q a h'
  | Throw _ => False
  end.

(** Every array of [h] is still there, unchanged, in [h']. *)
Definition preserved (h h' : Heap.Store) : Prop :=
  forall a xs, nth_error h a = Some xs -> nth_error h' a = Some xs.

(** A store with two arrays besides the snapshot. *)
Definition sampleStore : Heap.Store :=
  [ [oldPhoto]; [duoPhoto; oldPhoto; pendingPhoto]; [] ].

(** ** Facts about the JavaScript fragment *)

Lemma filterM_pure {A} (f : A -> Completion bool) (g : A -> bool) xs :
  (forall x, f x = Normal (g x)) -> filterM f xs = Normal (filter g xs).
Proof.
  intros Hfg. induction xs as [|x xs IH]; simpl; [reflexivity|].
  rewrite Hfg, IH. simpl. destruct (g x); reflexivity.
Qed.

Lemma forEachM_pure {A S} (f : S -> A -> Completion S) (g : S -> A -> S) xs :
  (forall s x, f s x = Normal (g s x)) ->
  forall s, forEachM f xs s = Normal (fold_left g xs s).
Proof.
  intros Hfg. induction xs as [|x xs IH]; intros s; simpl; [reflexivity|].
  rewrite Hfg. simpl. apply IH.
Qed.

Lemma guard_length_ge photo :
  and_then (tags photo) (n <- length_of (tags photo) ;; Normal (3 <=? n))
  = Normal (isTeam photo).
Proof. unfold isTeam. destruct (tags photo); reflexivity. Qed.

Lemma guard_length_lt photo :
  and_then (tags photo) (n <- length_of (tags photo) ;; Normal (n <? 3))
  = Normal (isIndividual photo).
Proof. unfold isIndividual. destruct (tags photo); reflexivity. Qed.

Lemma guard_includes player photo :
  and_then (tags photo) (includes_of (tags photo) player)
  = Normal (hasPlayer player photo).
Proof. unfold hasPlayer. destruct (tags photo); reflexivity. Qed.

Lemma Set_has_In xs x : Set_has xs x = true <-> In x xs.
Proof.
  unfold Set_has. rewrite existsb_exists. split.
  - intros [y [Hy He]]. apply String.eqb_eq in He. now subst.
  - intros H. exists x. split; [assumption | apply String.eqb_refl].
Qed.

Lemma Set_has_false xs x : Set_has xs x = false <-> ~ In x xs.
Proof.
  rewrite <- Set_has_In. destruct (Set_has xs x); split; intros; congruence.
Qed.

Lemma fold_Set_add_In xs : forall s x,
  In x (fold_left Set_add xs s) <-> In x s \/ In x xs.
Proof.
  induction xs as [|y xs IH]; intros s x; simpl; [tauto|].
  rewrite IH. unfold Set_add.
  destruct (Set_has s y) eqn:E.
  - apply Set_has_In in E. split; [tauto|].
    intros [H|[H|H]]; subst; auto.
  - rewrite in_app_iff. simpl. tauto.
Qed.

Lemma Array_from_Set_In xs x : In x (Array_from_Set xs) <-> In x xs.
Proof. unfold Array_from_Set. rewrite fold_Set_add_In. simpl. tauto. Qed.

Lemma fold_Set_add_NoDup xs : forall s,
  NoDup s -> NoDup (fold_left Set_add xs s).
Proof.
  induction xs as [|y xs IH]; intros s Hs; simpl; [assumption|].
  apply IH. unfold Set_add. destruct (Set_has s y) eqn:E; [assumption|].
  apply Set_has_false in E.
  apply NoDup_app; try assumption.
  - repeat constructor. intros [].
  - intros a Ha [Hb|[]]. subst. contradiction.
Qed.

Lemma Array_from_Set_NoDup xs : NoDup (Array_from_Set xs).
Proof. apply fold_Set_add_NoDup. constructor. Qed.

Lemma slice0_min {A} (l : list A) n :
  slice0 (Nat.min (length l) n) l = firstn n l.
Proof.
  unfold slice0. destruct (Nat.le_ge_cases (length l) n) as [H|H].
  - rewrite Nat.min_l by assumption.
    rewrite !firstn_all2; auto.
  - now rewrite Nat.min_r.
Qed.

(** *** The sort, for a comparator that subtracts keys *)

Section KeySort.
Context {A : Type} (key : A -> Z).

Lemma sort_insert_perm x l :
  Permutation (sort_insert (keyCompare key) x l) (x :: l).
Proof.
  induction l as [|y l IH]; simpl; [reflexivity|].
  destruct (keyCompare key x y <=? 0)%Z; [reflexivity|].
  rewrite IH. apply perm_swap.
Qed.

Lemma Array_sort_perm l : Permutation (Array_sort (keyCompare key) l) l.
Proof.
  induction l as [|x l IH]; simpl; [constructor|].
  rewrite sort_insert_perm. now constructor.
Qed.

Lemma sort_insert_sorted x l :
  StronglySorted (newerFirst key) l ->
  StronglySorted (newerFirst key) (sort_insert (keyCompare key) x l).
Proof.
  induction 1 as [|y l Hl IH Hy]; simpl.
  - repeat constructor.
  - destruct (Z.leb_spec (keyCompare key x y) 0) as [Hle|Hgt];
    unfold keyCompare in *.
    + constructor; [now constructor|].
      constructor; [unfold newerFirst; lia|].
      eapply Forall_impl; [|exact Hy].
      unfold newerFirst. intros; lia.
    + constructor; [assumption|].
      eapply Permutation_Forall;
        [symmetry; apply sort_insert_perm|].
      constructor; [unfold newerFirst; lia | assumption].
Qed.

Lemma Array_sort_sorted l :
  StronglySorted (newerFirst key) (Array_sort (keyCompare key) l).
Proof.
  induction l as [|x l IH]; simpl; [constructor|].
  now apply sort_insert_sorted.
Qed.

(** Stability: records with the same key keep their relative order. *)
Lemma sort_insert_stable k x l :
  filter (fun y => (key y =? k)%Z) (sort_insert (keyCompare key) x l)
  = filter (fun y => (key y =? k)%Z) (x :: l).
Proof.
  induction l as [|y l IH]; [reflexivity|].
  simpl sort_insert.
  destruct (Z.leb_spec (keyCompare key x y) 0) as [Hle|Hgt]; [reflexivity|].
  unfold keyCompare in Hgt. simpl in *. rewrite IH.
  destruct (Z.eqb_spec (key x) k), (Z.eqb_spec (key y) k);
    try reflexivity; lia.
Qed.

Lemma Array_sort_stable k l :
  filter (fun y => (key y =? k)%Z) (Array_sort (keyCompare key) l)
  = filter (fun y => (key y =? k)%Z) l.
Proof.
  induction l as [|x l IH]; [reflexivity|].
  simpl Array_sort. rewrite sort_insert_stable. simpl. now rewrite IH.
Qed.

End KeySort.

Lemma byNewest_sort_perm l : Permutation (Array_sort byNewest l) l.
Proof. exact (Array_sort_perm dateOrZero l). Qed.

Lemma byNewest_sort_In l p : In p (Array_sort byNewest l) <-> In p l.
Proof.
  split; apply Permutation_in;
    [apply byNewest_sort_perm | symmetry; apply byNewest_sort_perm].
Qed.

(** ** The selection never throws *)

Lemma getRotatedPhotos_eq photos :
  getRotatedPhotos photos = Normal (Array_sort byNewest (selection photos)).
Proof.
  unfold getRotatedPhotos, selection.
  fold isPublic. set (publicPhotos := filter isPublic photos).
  destruct (Nat.eqb_spec (length publicPhotos) 0) as [E|E].
  - apply length_zero_iff_nil in E. rewrite E. reflexivity.
  - rewrite (filterM_pure _ isTeam) by apply guard_length_ge.
    rewrite (filterM_pure _ isIndividual) by apply guard_length_lt.
    cbn [bind].
    set (individualPhotos := filter isIndividual publicPhotos).
    assert (Hseed :
      (if 0 <? length (filter isTeam publicPhotos)
       then [] ++ slice0 (Nat.min (length (filter isTeam publicPhotos)) 6)
                    (filter isTeam publicPhotos)
       else []) = seed publicPhotos).
    { unfold seed. rewrite slice0_min.
      destruct (filter isTeam publicPhotos); reflexivity. }
    rewrite Hseed.
    rewrite (forEachM_pure _ (coverStep individualPhotos)).
    + reflexivity.
    + intros s x.
      rewrite (filterM_pure _ (hasPlayer x)) by apply guard_includes.
      reflexivity.
Qed.

(** ** Shape of the working selection *)

Lemma coverage_shape ind rem : forall rot,
  exists added,
    coverage ind rem rot = rot ++ added
    /\ Forall (fun p => In p ind) added
    /\ length added <= length rem.
Proof.
  unfold coverage.
  induction rem as [|player rem IH]; intros rot; cbn [fold_left length].
  - exists []. rewrite app_nil_r. repeat split; auto.
  - destruct (IH (coverStep ind rot player)) as (added & E & Hin & Hlen).
    rewrite E. unfold coverStep.
    destruct (filter (hasPlayer player) ind) as [|first rest] eqn:F.
    + exists added. repeat split; auto.
    + exists (first :: added). rewrite <- app_assoc. simpl.
      repeat split; [|lia].
      constructor; [|assumption].
      assert (H : In first (filter (hasPlayer player) ind))
        by (rewrite F; now left).
      now apply filter_In in H.
Qed.

Lemma fill_shape ind rot :
  exists extra,
    fill ind rot = rot ++ extra
    /\ Forall (fun p => In p ind /\ ~ In (id p) (map id rot)) extra
    /\ length rot + length extra <= Nat.max (length rot) maxPhotos.
Proof.
  unfold fill. destruct (Nat.ltb_spec (length rot) maxPhotos) as [H|H].
  - eexists. split; [reflexivity|]. split.
    + apply Forall_forall. intros p Hp.
      assert (Hp' : In p (filter (fun photo =>
                 negb (Set_has (map id rot) (id photo))) ind)).
      { rewrite <- (firstn_skipn (maxPhotos - length rot)).
        apply in_or_app. now left. }
      apply filter_In in Hp' as [Hi Hn]. split; [assumption|].
      apply negb_true_iff in Hn. now apply Set_has_false in Hn.
    + pose proof (firstn_le_length (maxPhotos - length rot)
        (filter (fun photo => negb (Set_has (map id rot) (id photo))) ind)).
      lia.
  - exists []. rewrite app_nil_r. repeat split; auto. simpl. lia.
Qed.

Lemma selection_shape photos :
  let publicPhotos := filter isPublic photos in
  exists added,
    selection photos = seed publicPhotos ++ added
    /\ Forall (fun p => In p (filter isIndividual publicPhotos)) added.
Proof.
  intros publicPhotos. unfold selection. fold publicPhotos.
  set (ind := filter isIndividual publicPhotos).
  destruct (coverage_shape ind (remaining publicPhotos) (seed publicPhotos))
    as (added & E & Hin & _).
  destruct (fill_shape ind (coverage ind (remaining publicPhotos)
                              (seed publicPhotos)))
    as (extra & E' & Hin' & _).
  exists (added ++ extra). rewrite E', E, app_assoc. split; [reflexivity|].
  apply Forall_app. split; [assumption|].
  eapply Forall_impl; [|exact Hin']. now intros p [H _].
Qed.

Lemma seed_In publicPhotos p :
  In p (seed publicPhotos) -> In p publicPhotos /\ isTeam p = true.
Proof.
  unfold seed. intros H. apply filter_In.
  rewrite <- (firstn_skipn 6). apply in_or_app. now left.
Qed.

Lemma seed_length publicPhotos : length (seed publicPhotos) <= 6.
Proof. apply firstn_le_length. Qed.

Lemma isIndividual_not_team p : isIndividual p = true -> isTeam p = false.
Proof.
  unfold isIndividual, isTeam. destruct (tags p); [|reflexivity].
  intros H. apply Nat.ltb_lt in H. apply Nat.leb_gt. exact H.
Qed.

Lemma selection_In photos p :
  In p (selection photos) ->
  In p photos /\ isPublic p = true
  /\ (In p (seed (filter isPublic photos)) /\ isTeam p = true
      \/ isIndividual p = true).
Proof.
  destruct (selection_shape photos) as (added & E & Hadd).
  rewrite E. intros H. apply in_app_or in H as [H|H].
  - pose proof (seed_In _ _ H) as [Hp Ht].
    apply filter_In in Hp as [Hp Hv]. auto.
  - rewrite Forall_forall in Hadd. apply Hadd in H.
    apply filter_In in H as [Hp Hi]. apply filter_In in Hp as [Hp Hv]. auto.
Qed.

Lemma Permutation_filter {A} (f : A -> bool) l l' :
  Permutation l l' -> Permutation (filter f l) (filter f l').
Proof.
  induction 1 as [|x l l' _ IH|x y l|l l' l'' _ IH1 _ IH2]; simpl.
  - constructor.
  - destruct (f x); [now constructor | assumption].
  - destruct (f x), (f y); try reflexivity. apply perm_swap.
  - now transitivity (filter f l').
Qed.

Lemma filter_none {A} (f : A -> bool) l :
  Forall (fun x => f x = false) l -> filter f l = [].
Proof.
  induction 1 as [|x l Hx _ IH]; simpl; [reflexivity|]. now rewrite Hx.
Qed.

Lemma filter_all {A} (f : A -> bool) l :
  Forall (fun x => f x = true) l -> filter f l = l.
Proof.
  induction 1 as [|x l Hx _ IH]; simpl; [reflexivity|]. now rewrite Hx, IH.
Qed.

Lemma selection_team photos :
  filter isTeam (selection photos) = seed (filter isPublic photos).
Proof.
  destruct (selection_shape photos) as (added & E & Hadd).
  rewrite E, filter_app.
  rewrite (filter_none isTeam added).
  - rewrite app_nil_r. apply filter_all. apply Forall_forall.
    intros p Hp. now apply seed_In in Hp.
  - eapply Forall_impl; [|exact Hadd]. intros p Hp.
    apply filter_In in Hp as [_ Hi]. now apply isIndividual_not_team.
Qed.

Lemma Forall_in_nil {A} (l : list A) : Forall (fun p => In p []) l -> l = [].
Proof. destruct 1 as [|x l Hx _]; [reflexivity | destruct Hx]. Qed.

Lemma NoDup_app_disjoint {A} (l1 l2 : list A) a :
  NoDup (l1 ++ l2) -> In a l1 -> In a l2 -> False.
Proof.
  induction l1 as [|x l1 IH]; simpl; intros Hnd H1 H2; [assumption|].
  apply NoDup_cons_iff in Hnd as [Hx Hnd]. destruct H1 as [->|H1].
  - apply Hx, in_or_app. now right.
  - now apply IH.
Qed.

Lemma StronglySorted_suffix {A} (R : A -> A -> Prop) l1 l2 :
  StronglySorted R (l1 ++ l2) -> StronglySorted R l2.
Proof.
  induction l1 as [|x l1 IH]; simpl; [trivial|].
  intros H. apply StronglySorted_inv in H as [H _]. now apply IH.
Qed.

Lemma isPublic_true p : isPublic p = true <-> visibility p = "public".
Proof. apply String.eqb_eq. Qed.

Lemma hasPlayer_In player p :
  hasPlayer player p = true <-> In player (or_empty (tags p)).
Proof.
  unfold hasPlayer. destruct (tags p); simpl.
  - apply Set_has_In.
  - split; [discriminate | intros []].
Qed.

Lemma coverage_keeps ind rem rot p :
  In p rot -> In p (coverage ind rem rot).
Proof.
  destruct (coverage_shape ind rem rot) as (added & E & _).
  rewrite E. intros H. apply in_or_app. now left.
Qed.

Lemma fill_keeps ind rot p : In p rot -> In p (fill ind rot).
Proof.
  destruct (fill_shape ind rot) as (extra & E & _).
  rewrite E. intros H. apply in_or_app. now left.
Qed.

Lemma coverage_covers ind player rem : forall rot,
  In player rem ->
  (exists p, In p ind /\ hasPlayer player p = true) ->
  exists p, In p (coverage ind rem rot) /\ hasPlayer player p = true.
Proof.
  induction rem as [|q rem IH]; intros rot Hin Hex; [destruct Hin|].
  destruct Hin as [->|Hin].
  - destruct Hex as (p & Hp & Hh).
    assert (Hf : In p (filter (hasPlayer player) ind))
      by (apply filter_In; split; assumption).
    unfold coverage. cbn [fold_left]. fold (coverage ind rem).
    unfold coverStep at 2.
    destruct (filter (hasPlayer player) ind) as [|first rest] eqn:F;
      [destruct Hf|].
    exists first. split.
    + apply coverage_keeps, in_or_app. right. now left.
    + assert (H : In first (filter (hasPlayer player) ind))
        by (rewrite F; now left).
      now apply filter_In in H.
  - apply (IH (coverStep ind rot q) Hin Hex).
Qed.

Lemma selection_features_player (photos : list Photo) player :
  In player (players (seed (filter isPublic photos)))
  \/ In player (players (filter isIndividual (filter isPublic photos))) ->
  exists p, In p (selection photos) /\ In player (or_empty (tags p)).
Proof.
  intros H.
  set (publicPhotos := filter isPublic photos) in *.
  set (ind := filter isIndividual publicPhotos) in *.
  unfold selection. fold publicPhotos. fold ind.
  destruct (in_dec string_dec player (players (seed publicPhotos)))
    as [Hs|Hs].
  - apply in_flat_map in Hs as (p & Hp & Ht).
    exists p. split; [|assumption].
    now apply fill_keeps, coverage_keeps.
  - destruct H as [H|H]; [contradiction|].
    apply in_flat_map in H as (p & Hp & Ht).
    destruct (coverage_covers ind player (remaining publicPhotos)
                (seed publicPhotos)) as (q & Hq & Hh).
    + unfold remaining. apply filter_In. split.
      * apply Array_from_Set_In, in_flat_map. exists p. split; [|assumption].
        unfold ind in Hp. now apply filter_In in Hp.
      * apply negb_true_iff. now apply Set_has_false.
    + exists p. split; [assumption | now apply hasPlayer_In].
    + exists q. split; [now apply fill_keeps | now apply hasPlayer_In].
Qed.

(** X2. What the coverage pass does ensure: a player tagged in a seeded team
    photo or in a public individual photo is featured in the output. *)
Lemma seeded_or_individual_player_featured (photos : list Photo) player :
  In player (players (seed (filter isPublic photos)))
  \/ In player (players (filter isIndividual (filter isPublic photos))) ->
  exists out,
    getRotatedPhotos photos = Normal out /\ In player (players out).
Proof.
  intros H. rewrite getRotatedPhotos_eq. eexists. split; [reflexivity|].
  destruct (selection_features_player photos player H) as (p & Hp & Ht).
  apply in_flat_map. exists p. split; [|assumption].
  now apply byNewest_sort_In.
Qed.

(** X4. What the fill pass does ensure: the rotation has at most [maxPhotos]
    elements unless seed and coverage alone already exceed it. *)
Lemma rotation_length_bound (photos : list Photo) :
  exists out,
    getRotatedPhotos photos = Normal out
    /\ length out
       <= Nat.max maxPhotos
            (6 + length (remaining (filter isPublic photos))).
Proof.
  rewrite getRotatedPhotos_eq. eexists. split; [reflexivity|].
  rewrite (Permutation_length (byNewest_sort_perm _)).
  unfold selection.
  set (publicPhotos := filter isPublic photos).
  set (ind := filter isIndividual publicPhotos).
  destruct (coverage_shape ind (remaining publicPhotos) (seed publicPhotos))
    as (added & E & _ & Hlen).
  destruct (fill_shape ind (coverage ind (remaining publicPhotos)
                              (seed publicPhotos)))
    as (extra & E' & _ & Hlen').
  rewrite E', length_app. rewrite E, length_app in Hlen'.
  rewrite E, length_app.
  pose proof (seed_length publicPhotos). lia.
Qed.

(** ** Properties of the rotation *)

(** C7. No element of the output is private: every photo the selection
    returns has [visibility = "public"], whatever its tags or timestamp. *)
Theorem private_never_shown (photos : list Photo) :
  exists out,
    getRotatedPhotos photos = Normal out
    /\ Forall (fun p => visibility p = "public" /\ visibility p <> "private")
         out.
Proof.
  rewrite getRotatedPhotos_eq. eexists. split; [reflexivity|].
  apply Forall_forall. intros p Hp.
  apply (proj1 (byNewest_sort_In _ _)) in Hp.
  apply selection_In in Hp as (_ & Hv & _).
  apply isPublic_true in Hv. rewrite Hv. split; [reflexivity | discriminate].
Qed.

(** C8. When no record of the input is public, the empty input included,
    the selection returns the empty sequence, and it is a normal result. *)
Theorem no_public_photos_empty (photos : list Photo) :
  Forall (fun p => visibility p <> "public") photos ->
  getRotatedPhotos photos = Normal [].
Proof.
  intros H. unfold getRotatedPhotos. fold isPublic.
  rewrite (filter_none isPublic photos); [reflexivity|].
  eapply Forall_impl; [|exact H]. intros p Hp.
  destruct (isPublic p) eqn:E; [|reflexivity].
  now apply isPublic_true in E.
Qed.

Lemma no_public_photos_empty_witness :
  Forall (fun p => visibility p <> "public")
    [privatePhoto "x1" (Some ["A"; "B"; "C"]) (Some 5%Z);
     privatePhoto "x2" None None]
  /\ getRotatedPhotos
       [privatePhoto "x1" (Some ["A"; "B"; "C"]) (Some 5%Z);
        privatePhoto "x2" None None] = Normal []
  /\ getRotatedPhotos [] = Normal [].
Proof.
  split; [repeat constructor; discriminate|].
  split; apply no_public_photos_empty; repeat constructor; discriminate.
Defined.

(** C10. The output holds at most six team photos (records with three or
    more tags), and each of them comes from the seed: the coverage and fill
    passes add individual photos only. *)
Theorem at_most_six_team_photos (photos : list Photo) :
  exists out,
    getRotatedPhotos photos = Normal out
    /\ length (filter isTeam out) <= 6
    /\ Forall (fun p => isTeam p = true ->
                        In p (seed (filter isPublic photos))) out.
Proof.
  rewrite getRotatedPhotos_eq. eexists. split; [reflexivity|]. split.
  - rewrite (Permutation_length
               (Permutation_filter isTeam _ _
                  (byNewest_sort_perm (selection photos)))).
    rewrite selection_team. apply seed_length.
  - apply Forall_forall. intros p Hp Ht.
    apply (proj1 (byNewest_sort_In _ _)) in Hp.
    assert (H : In p (filter isTeam (selection photos)))
      by (apply filter_In; split; assumption).
    now rewrite selection_team in H.
Qed.

Lemma coverage_no_individual rem rot : coverage [] rem rot = rot.
Proof.
  destruct (coverage_shape [] rem rot) as (added & E & Hin & _).
  apply Forall_in_nil in Hin. subst added. now rewrite app_nil_r in E.
Qed.

Lemma fill_no_individual rot : fill [] rot = rot.
Proof.
  destruct (fill_shape [] rot) as (extra & E & Hin & _).
  assert (H : extra = []).
  { apply Forall_in_nil. eapply Forall_impl; [|exact Hin]. now intros p [H _]. }
  subst extra. now rewrite app_nil_r in E.
Qed.

(** C5. Seven public team photos of four tags each, the 28 tags pairwise
    distinct: the output is the first six in input order (rearranged by the
    final sort) and the seventh is left out. In general the seed holds at
    most six team photos, a team photo of the output always comes from the
    seed, and no team photo is among the candidates of the later passes. *)
Theorem seven_team_photos_keep_first_six (ps : list Photo) :
  length ps = 7 ->
  Forall (fun p => visibility p = "public"
                   /\ exists a, tags p = Some a /\ length a = 4) ps ->
  NoDup (players ps) ->
  (exists out,
     getRotatedPhotos ps = Normal out
     /\ Permutation out (firstn 6 ps)
     /\ length (filter isTeam out) = 6
     /\ forall p, In p (skipn 6 ps) -> ~ In p out)
  /\ (forall photos,
        length (seed (filter isPublic photos)) <= 6
        /\ Forall (fun p => isTeam p = false)
             (filter isIndividual (filter isPublic photos))
        /\ forall out p,
             getRotatedPhotos photos = Normal out -> In p out ->
             isTeam p = true -> In p (seed (filter isPublic photos))).
Proof.
  intros Hlen Hall Hnd. split.
  - assert (Hpub : filter isPublic ps = ps).
    { apply filter_all. eapply Forall_impl; [|exact Hall].
      intros p [Hv _]. now apply isPublic_true. }
    assert (Hteam : Forall (fun p => isTeam p = true) ps).
    { eapply Forall_impl; [|exact Hall].
      intros p (_ & a & Ha & Hl). unfold isTeam. now rewrite Ha, Hl. }
    assert (Hind : filter isIndividual ps = []).
    { apply filter_none. eapply Forall_impl; [|exact Hall].
      intros p (_ & a & Ha & Hl). unfold isIndividual. now rewrite Ha, Hl. }
    assert (Hsel : selection ps = firstn 6 ps).
    { unfold selection. rewrite Hpub, Hind.
      rewrite coverage_no_individual, fill_no_individual.
      unfold seed. now rewrite (filter_all isTeam ps Hteam). }
    rewrite getRotatedPhotos_eq, Hsel. eexists. split; [reflexivity|].
    split; [apply byNewest_sort_perm|]. split.
    + rewrite (Permutation_length
                 (Permutation_filter isTeam _ _
                    (byNewest_sort_perm (firstn 6 ps)))).
      rewrite filter_all.
      * rewrite length_firstn, Hlen. reflexivity.
      * apply Forall_forall. intros p Hp.
        rewrite Forall_forall in Hteam. apply Hteam.
        rewrite <- (firstn_skipn 6 ps). apply in_or_app. now left.
    + intros p Hlast Hout.
      apply (proj1 (byNewest_sort_In _ _)) in Hout.
      assert (Hp : In p ps).
      { rewrite <- (firstn_skipn 6 ps). apply in_or_app. now right. }
      rewrite Forall_forall in Hall.
      destruct (Hall p Hp) as (_ & a & Ha & Hl).
      destruct a as [|x a]; [discriminate|].
      rewrite <- (firstn_skipn 6 ps) in Hnd.
      unfold players in Hnd. rewrite flat_map_app in Hnd.
      apply (NoDup_app_disjoint _ _ x Hnd);
        apply in_flat_map; exists p; rewrite Ha; simpl; auto.
  - intros photos. split; [apply seed_length|]. split.
    + apply Forall_forall. intros p Hp.
      apply filter_In in Hp as [_ Hi]. now apply isIndividual_not_team.
    + intros out p E Hp Ht. rewrite getRotatedPhotos_eq in E.
      injection E as <-. apply (proj1 (byNewest_sort_In _ _)) in Hp.
      assert (H : In p (filter isTeam (selection photos)))
        by (apply filter_In; split; assumption).
      now rewrite selection_team in H.
Qed.

Lemma seven_team_photos_keep_first_six_witness :
  (exists out,
     getRotatedPhotos sevenTeams = Normal out
     /\ Permutation out (firstn 6 sevenTeams)
     /\ length (filter isTeam out) = 6
     /\ forall p, In p (skipn 6 sevenTeams) -> ~ In p out)
  /\ (forall photos,
        length (seed (filter isPublic photos)) <= 6
        /\ Forall (fun p => isTeam p = false)
             (filter isIndividual (filter isPublic photos))
        /\ forall out p,
             getRotatedPhotos photos = Normal out -> In p out ->
             isTeam p = true -> In p (seed (filter isPublic photos))).
Proof.
  apply (seven_team_photos_keep_first_six sevenTeams).
  - reflexivity.
  - repeat constructor; eexists; split; reflexivity.
  - vm_compute.
    repeat (constructor;
            [simpl; intuition discriminate|]).
    constructor.
Defined.

(** C6, as the claim states it, fails: a record without a timestamp is
    sorted with key 0 and so comes before a record dated before the epoch. *)
Lemma undated_before_dated :
  getRotatedPhotos [oldPhoto; pendingPhoto] = Normal [pendingPhoto; oldPhoto]
  /\ timestamp pendingPhoto = None
  /\ timestamp oldPhoto = Some (-1)%Z.
Proof. repeat split. Qed.

(** C6, amended. The output is sorted by the key [dateOrZero] descending,
    where a missing timestamp counts as 0 (the epoch): a record without a
    timestamp is followed only by undated records and records dated at or
    before the epoch, so it comes after every record dated later than the
    epoch; records with equal keys keep the relative order they had in the
    working selection before the sort. *)
Theorem output_sorted_newest_first (photos : list Photo) :
  exists out,
    getRotatedPhotos photos = Normal out
    /\ StronglySorted (newerFirst dateOrZero) out
    /\ (forall k,
          filter (fun p => (dateOrZero p =? k)%Z) out
          = filter (fun p => (dateOrZero p =? k)%Z) (selection photos))
    /\ (forall l1 x l2 y ms,
          out = l1 ++ x :: l2 -> timestamp x = None -> In y l2 ->
          timestamp y = Some ms -> (ms <= 0)%Z).
Proof.
  rewrite getRotatedPhotos_eq. eexists. split; [reflexivity|].
  pose proof (Array_sort_sorted dateOrZero (selection photos)) as Hs.
  split; [exact Hs|]. split.
  - intros k. apply (Array_sort_stable dateOrZero).
  - intros l1 x l2 y ms E Hx Hy Hms.
    change (Array_sort (keyCompare dateOrZero) (selection photos))
      with (Array_sort byNewest (selection photos)) in Hs.
    rewrite E in Hs. apply StronglySorted_suffix in Hs.
    apply StronglySorted_inv in Hs as [_ Hs].
    rewrite Forall_forall in Hs. specialize (Hs y Hy).
    unfold newerFirst, dateOrZero in Hs. now rewrite Hx, Hms in Hs.
Qed.

(** C4, as the claim states it, fails: a public record without [tags] is
    not classified as an individual photo and is no candidate of the fill
    pass, so it is left out even when the rotation is empty. *)
Lemma untagged_not_individual :
  and_then (tags untaggedPhoto)
    (n <- length_of (tags untaggedPhoto) ;; Normal (n <? 3)) = Normal false
  /\ isIndividual untaggedPhoto = false
  /\ getRotatedPhotos [untaggedPhoto] = Normal []
  /\ ~ (exists out,
          getRotatedPhotos [untaggedPhoto] = Normal out
          /\ In untaggedPhoto out).
Proof.
  repeat split. intros (out & E & H).
  vm_compute in E. injection E as <-. destruct H.
Qed.

(** C4, amended. The selection never throws. A record without [tags]
    contributes no player, and both classification tests are false on it
    (without throwing): it is neither a team photo nor an individual photo,
    and it never appears in the output. *)
Theorem untagged_photos_left_out (photos : list Photo) :
  exists out,
    getRotatedPhotos photos = Normal out
    /\ Forall (fun p => tags p <> None) out
    /\ forall p, tags p = None ->
         or_empty (tags p) = []
         /\ and_then (tags p)
              (n <- length_of (tags p) ;; Normal (3 <=? n)) = Normal false
         /\ and_then (tags p)
              (n <- length_of (tags p) ;; Normal (n <? 3)) = Normal false.
Proof.
  rewrite getRotatedPhotos_eq. eexists. split; [reflexivity|]. split.
  - apply Forall_forall. intros p Hp Hnone.
    apply (proj1 (byNewest_sort_In _ _)) in Hp.
    apply selection_In in Hp as (_ & _ & [[_ Ht]|Hi]).
    + unfold isTeam in Ht. now rewrite Hnone in Ht.
    + unfold isIndividual in Hi. now rewrite Hnone in Hi.
  - intros p Hnone. rewrite Hnone. repeat split.
Qed.

(** C1 fails on the code: the coverage pass pushes the first photo of each
    remaining player without looking at the ids already selected, so one
    photo of two uncovered players is returned twice. *)
Theorem coverage_repeats_photo :
  NoDup (map id [duoPhoto])
  /\ getRotatedPhotos [duoPhoto] = Normal [duoPhoto; duoPhoto]
  /\ ~ NoDup (map id [duoPhoto; duoPhoto]).
Proof.
  split; [repeat constructor; intros []|].
  split; [reflexivity|].
  intros H. apply NoDup_cons_iff in H as [H _]. apply H. now left.
Qed.

(** C2 fails on the code: nothing truncates the rotation, so thirteen
    photos of thirteen different players are all returned (more than
    [maxPhotos]), and the repeated photo of C1 makes the output longer
    than the input. *)
Theorem rotation_exceeds_max :
  length soloPhotos = 13
  /\ NoDup (map id soloPhotos)
  /\ (exists out,
        getRotatedPhotos soloPhotos = Normal out
        /\ length out = 13 /\ maxPhotos < length out)
  /\ (exists out,
        getRotatedPhotos [duoPhoto] = Normal out
        /\ length [duoPhoto] < length out).
Proof.
  split; [reflexivity|]. split.
  - vm_compute. repeat (constructor; [simpl; intuition discriminate|]).
    constructor.
  - split; eexists; (split; [vm_compute; reflexivity|]); vm_compute; lia.
Qed.

(** C3 fails on the code: a player who is tagged only in team photos after
    the sixth is never featured, although the public photos show no more
    than [maxPhotos] players. *)
Theorem late_team_player_uncovered :
  length (Array_from_Set (players (filter isPublic teamOfFour))) = 4
  /\ In "D" (Array_from_Set (players (filter isPublic teamOfFour)))
  /\ exists out,
       getRotatedPhotos teamOfFour = Normal out
       /\ ~ In "D" (players out).
Proof.
  split; [reflexivity|]. split; [vm_compute; tauto|].
  eexists. split; [vm_compute; reflexivity|].
  vm_compute. intuition discriminate.
Qed.

(** ** Further properties of the rotation *)

(** X1. The rotation shows only photos of the snapshot it was given. *)
Theorem rotation_from_snapshot (photos : list Photo) :
  exists out,
    getRotatedPhotos photos = Normal out
    /\ Forall (fun p => In p photos) out.
Proof.
  rewrite getRotatedPhotos_eq. eexists. split; [reflexivity|].
  apply Forall_forall. intros p Hp.
  apply (proj1 (byNewest_sort_In _ _)) in Hp.
  now apply selection_In in Hp.
Qed.

Lemma seeded_or_individual_player_featured_witness :
  exists out,
    getRotatedPhotos (teamOfFour ++ soloPhotos) = Normal out
    /\ In "k" (players out).
Proof.
  apply seeded_or_individual_player_featured.
  right. vm_compute. tauto.
Defined.

Lemma tagged_team_or_individual p player :
  In player (or_empty (tags p)) -> isTeam p = true \/ isIndividual p = true.
Proof.
  unfold isTeam, isIndividual. destruct (tags p) as [a|]; [|intros []].
  intros _. destruct (Nat.leb_spec 3 (length a)); [now left|right].
  now apply Nat.ltb_lt.
Qed.

(** X3. With at most six public team photos, every player tagged in a public
    photo is featured in the rotation. *)
Theorem few_team_photos_all_featured (photos : list Photo) player :
  length (filter isTeam (filter isPublic photos)) <= 6 ->
  In player (players (filter isPublic photos)) ->
  exists out,
    getRotatedPhotos photos = Normal out /\ In player (players out).
Proof.
  intros Hlen Hin. rewrite getRotatedPhotos_eq.
  eexists. split; [reflexivity|].
  destruct (selection_features_player photos player) as (q & Hq & Hq').
  - apply in_flat_map in Hin as (p & Hp & Ht).
    destruct (tagged_team_or_individual p player Ht) as [H|H].
    + left. apply in_flat_map. exists p. split; [|assumption].
      unfold seed. rewrite firstn_all2 by assumption.
      apply filter_In. split; assumption.
    + right. apply in_flat_map. exists p. split; [|assumption].
      apply filter_In. split; assumption.
  - apply in_flat_map. exists q. split; [|assumption].
    now apply byNewest_sort_In.
Qed.

Lemma few_team_photos_all_featured_witness :
  exists out,
    getRotatedPhotos (firstn 6 teamOfFour ++ soloPhotos) = Normal out
    /\ In "C" (players out).
Proof.
  apply few_team_photos_all_featured.
  - vm_compute. lia.
  - vm_compute. tauto.
Defined.

Lemma id_injective_on (l : list Photo) :
  NoDup (map id l) ->
  forall p q, In p l -> In q l -> id p = id q -> p = q.
Proof.
  induction l as [|x l IH]; simpl; intros Hnd p q Hp Hq E; [destruct Hp|].
  apply NoDup_cons_iff in Hnd as [Hx Hnd].
  destruct Hp as [->|Hp], Hq as [->|Hq]; auto.
  - exfalso. apply Hx. rewrite E. now apply in_map.
  - exfalso. apply Hx. rewrite <- E. now apply in_map.
Qed.

Lemma NoDup_firstn {A} n (l : list A) : NoDup l -> NoDup (firstn n l).
Proof.
  intros H. rewrite <- (firstn_skipn n l) in H.
  now apply NoDup_app_remove_r in H.
Qed.

Lemma NoDup_snoc {A} (l : list A) x : NoDup l -> ~ In x l -> NoDup (l ++ [x]).
Proof.
  intros Hl Hx. apply NoDup_app; [assumption | repeat constructor; intros [] |].
  intros a Ha [<-|[]]. contradiction.
Qed.

Lemma single_tag_player p player q :
  length (or_empty (tags p)) <= 1 ->
  hasPlayer player p = true -> hasPlayer q p = true -> player = q.
Proof.
  intros Hlen H1 H2. apply hasPlayer_In in H1, H2.
  destruct (or_empty (tags p)) as [|x [|y l]]; simpl in *; try lia;
    intuition congruence.
Qed.

Lemma coverage_NoDup ind rem : forall rot,
  NoDup rem ->
  Forall (fun p => length (or_empty (tags p)) <= 1) ind ->
  NoDup rot ->
  (forall p player, In p rot -> In p ind -> In player rem ->
                    hasPlayer player p = false) ->
  NoDup (coverage ind rem rot).
Proof.
  unfold coverage.
  induction rem as [|q rem IH]; intros rot Hrem Hone Hrot Hinv;
    cbn [fold_left]; [assumption|].
  apply NoDup_cons_iff in Hrem as [Hq Hrem].
  apply IH; try assumption.
  - unfold coverStep.
    destruct (filter (hasPlayer q) ind) as [|first rest] eqn:F;
      [assumption|].
    assert (Hf : In first (filter (hasPlayer q) ind))
      by (rewrite F; now left).
    apply filter_In in Hf as [Hfi Hfq].
    apply NoDup_snoc; [assumption|]. intros Hin.
    rewrite (Hinv first q Hin Hfi) in Hfq; [discriminate | now left].
  - intros p player Hp Hpi Hplayer. unfold coverStep in Hp.
    destruct (filter (hasPlayer q) ind) as [|first rest] eqn:F.
    + apply Hinv; auto. now right.
    + apply in_app_or in Hp as [Hp|[<-|[]]].
      * apply Hinv; auto. now right.
      * assert (Hf : In first (filter (hasPlayer q) ind))
          by (rewrite F; now left).
        apply filter_In in Hf as [_ Hfq].
        destruct (hasPlayer player first) eqn:E; [|reflexivity].
        rewrite Forall_forall in Hone.
        pose proof (single_tag_player first player q (Hone _ Hpi) E Hfq).
        subst. contradiction.
Qed.

Lemma fill_NoDup ind rot : NoDup ind -> NoDup rot -> NoDup (fill ind rot).
Proof.
  intros Hind Hrot. unfold fill.
  destruct (length rot <? maxPhotos); [|assumption].
  apply NoDup_app; [assumption | |].
  - apply NoDup_firstn. now apply NoDup_filter.
  - intros p Hp Hq.
    assert (Hq' : In p (filter (fun photo =>
               negb (Set_has (map id rot) (id photo))) ind)).
    { rewrite <- (firstn_skipn (maxPhotos - length rot)).
      apply in_or_app. now left. }
    apply filter_In in Hq' as [_ Hn]. apply negb_true_iff in Hn.
    apply Set_has_false in Hn. apply Hn. now apply in_map.
Qed.

(** X5. When the ids of the snapshot are distinct and no public photo has
    exactly two tags, no id appears twice in the rotation. *)
Theorem rotation_ids_distinct (photos : list Photo) :
  NoDup (map id photos) ->
  Forall (fun p => isPublic p = true ->
                   length (or_empty (tags p)) <> 2) photos ->
  exists out,
    getRotatedPhotos photos = Normal out /\ NoDup (map id out).
Proof.
  intros Hids Htwo. rewrite getRotatedPhotos_eq.
  eexists. split; [reflexivity|].
  assert (Hsel : NoDup (selection photos)).
  { unfold selection.
    set (publicPhotos := filter isPublic photos).
    set (ind := filter isIndividual publicPhotos).
    assert (Hpp : NoDup publicPhotos)
      by (apply NoDup_filter; now apply NoDup_map_inv in Hids).
    apply fill_NoDup; [now apply NoDup_filter|].
    apply coverage_NoDup.
    - unfold remaining. apply NoDup_filter, Array_from_Set_NoDup.
    - apply Forall_forall. intros p Hp.
      apply filter_In in Hp as [Hp Hi]. apply filter_In in Hp as [Hp Hv].
      rewrite Forall_forall in Htwo. specialize (Htwo p Hp Hv).
      unfold isIndividual in Hi. destruct (tags p) as [a|]; [|discriminate].
      apply Nat.ltb_lt in Hi. simpl in *. lia.
    - unfold seed. apply NoDup_firstn. now apply NoDup_filter.
    - intros p player Hp Hpi _. apply seed_In in Hp as [_ Ht].
      apply filter_In in Hpi as [_ Hi].
      apply isIndividual_not_team in Hi. congruence. }
  apply (Permutation_NoDup
           (Permutation_map id (Permutation_sym (byNewest_sort_perm _)))).
  apply NoDup_map_NoDup_ForallPairs; [|assumption].
  intros p q Hp Hq. apply selection_In in Hp as [Hp _].
  apply selection_In in Hq as [Hq _]. now apply id_injective_on with photos.
Qed.

Lemma rotation_ids_distinct_witness :
  exists out,
    getRotatedPhotos (teamOfFour ++ soloPhotos) = Normal out
    /\ NoDup (map id out).
Proof.
  apply rotation_ids_distinct.
  - vm_compute. repeat (constructor; [simpl; intuition discriminate|]).
    constructor.
  - repeat constructor; intros _; vm_compute; discriminate.
Defined.

Lemma fill_short ind rot :
  length (fill ind rot) < maxPhotos ->
  fill ind rot
  = rot ++ filter (fun photo => negb (Set_has (map id rot) (id photo))) ind.
Proof.
  unfold fill. destruct (Nat.ltb_spec (length rot) maxPhotos) as [H|H];
    [|lia].
  rewrite length_app, length_firstn. intros Hlt.
  rewrite firstn_all2; [reflexivity|]. lia.
Qed.

(** X6. A rotation of fewer than twelve photos shows every public photo
    whose [tags] field is present and holds fewer than three tags. *)
Theorem short_rotation_shows_individuals (photos : list Photo) :
  exists out,
    getRotatedPhotos photos = Normal out
    /\ (length out < maxPhotos ->
        Forall (fun p => In (id p) (map id out))
          (filter isIndividual (filter isPublic photos))).
Proof.
  rewrite getRotatedPhotos_eq. eexists. split; [reflexivity|].
  rewrite (Permutation_length (byNewest_sort_perm _)). intros Hlt.
  apply Forall_forall. intros p Hp.
  apply (Permutation_in _
           (Permutation_map id
              (Permutation_sym (byNewest_sort_perm (selection photos))))).
  unfold selection in *.
  set (ind := filter isIndividual (filter isPublic photos)) in *.
  set (rot := coverage ind _ _) in *.
  rewrite (fill_short ind rot Hlt), map_app. apply in_or_app.
  destruct (Set_has (map id rot) (id p)) eqn:E.
  - left. now apply Set_has_In.
  - right. apply in_map, filter_In. split; [assumption|]. now rewrite E.
Qed.

Lemma NoDup_map_filter {A B} (f : A -> B) (g : A -> bool) l :
  NoDup (map f l) -> NoDup (map f (filter g l)).
Proof.
  induction l as [|x l IH]; simpl; intros H; [constructor|].
  apply NoDup_cons_iff in H as [Hx H]. destruct (g x); simpl; auto.
  constructor; auto. intros Hin. apply Hx.
  apply in_map_iff in Hin as (y & E & Hy). apply filter_In in Hy as [Hy _].
  rewrite <- E. now apply in_map.
Qed.

Lemma filter_split_length {A} (g : A -> bool) l :
  length (filter g l) + length (filter (fun x => negb (g x)) l) = length l.
Proof.
  induction l as [|x l IH]; simpl; [reflexivity|].
  destruct (g x); simpl; lia.
Qed.

Lemma used_ids_bound (ids : list string) (l : list Photo) :
  NoDup (map id l) ->
  length (filter (fun p => Set_has ids (id p)) l) <= length ids.
Proof.
  intros H. rewrite <- (length_map id).
  apply NoDup_incl_length; [now apply NoDup_map_filter|].
  intros i Hi. apply in_map_iff in Hi as (p & <- & Hp).
  apply filter_In in Hp as [_ Hp]. now apply Set_has_In.
Qed.

(** X7. When the ids of the snapshot are distinct, the rotation is filled up:
    it holds at least twelve photos, or at least as many as there are
    public photos whose [tags] field is present and holds fewer than three
    tags. *)
Theorem rotation_filled_up (photos : list Photo) :
  NoDup (map id photos) ->
  exists out,
    getRotatedPhotos photos = Normal out
    /\ Nat.min maxPhotos
         (length (filter isIndividual (filter isPublic photos)))
       <= length out.
Proof.
  intros Hids. rewrite getRotatedPhotos_eq. eexists. split; [reflexivity|].
  rewrite (Permutation_length (byNewest_sort_perm _)).
  unfold selection.
  set (ind := filter isIndividual (filter isPublic photos)).
  set (rot := coverage ind _ _).
  assert (Hind : NoDup (map id ind)) by now do 2 apply NoDup_map_filter.
  pose proof (used_ids_bound (map id rot) ind Hind) as Hused.
  pose proof (filter_split_length (fun p => Set_has (map id rot) (id p)) ind)
    as Hsplit.
  rewrite length_map in Hused.
  unfold fill. destruct (Nat.ltb_spec (length rot) maxPhotos) as [H|H];
    [|lia].
  rewrite length_app, length_firstn. lia.
Qed.

Lemma rotation_filled_up_witness :
  exists out,
    getRotatedPhotos (teamOfFour ++ soloPhotos) = Normal out
    /\ Nat.min maxPhotos
         (length (filter isIndividual
                    (filter isPublic (teamOfFour ++ soloPhotos))))
       <= length out.
Proof.
  apply rotation_filled_up.
  vm_compute. repeat (constructor; [simpl; intuition discriminate|]).
  constructor.
Defined.

(** ** Homepage: search *)

Lemma filterM_returned {A} (f : A -> Completion bool) xs :
  (forall x, exists b, f x = Normal b) ->
  filterM f xs = Normal (filter (fun x => returned (f x)) xs).
Proof.
  intros H. apply filterM_pure. intros x.
  destruct (H x) as [b E]. now rewrite E.
Qed.

Lemma searchMatch_returns toLowerCase q photo :
  exists b, searchMatch toLowerCase q photo = Normal b.
Proof.
  unfold searchMatch. destruct (String.eqb q ""); [now eexists|].
  destruct (_ && _)%bool; [now eexists|].
  destruct (tags photo); simpl; now eexists.
Qed.

Lemma prefix_refl s : String.prefix s s = true.
Proof.
  induction s as [|a s IH]; simpl; [reflexivity|].
  destruct (Ascii.ascii_dec a a); [assumption | contradiction].
Qed.

Lemma str_includes_refl s : str_includes s s = true.
Proof. destruct s; cbn [str_includes]; now rewrite prefix_refl. Qed.

Lemma StronglySorted_filter {A} (R : A -> A -> Prop) (f : A -> bool) l :
  StronglySorted R l -> StronglySorted R (filter f l).
Proof.
  induction 1 as [|x l Hl IH Hx]; simpl; [constructor|].
  destruct (f x); [|assumption].
  constructor; [assumption|].
  apply Forall_forall. intros y Hy. apply filter_In in Hy as [Hy _].
  rewrite Forall_forall in Hx. now apply Hx.
Qed.

Lemma filter_length_le {A} (f : A -> bool) l :
  length (filter f l) <= length l.
Proof.
  induction l as [|x l IH]; simpl; [lia|]. destruct (f x); simpl; lia.
Qed.

Lemma filter_comm {A} (f g : A -> bool) l :
  filter f (filter g l) = filter g (filter f l).
Proof.
  induction l as [|x l IH]; simpl; [reflexivity|].
  destruct (f x) eqn:F, (g x) eqn:G; simpl; rewrite ?F, ?G, IH; reflexivity.
Qed.

(** X8. With an empty search box the homepage shows the whole rotation. *)
Theorem empty_search_shows_rotation toLowerCase (st : Homepage) :
  searchQuery st = "" ->
  Home.filteredPhotos toLowerCase st = rotatedPhotos st.
Proof.
  intros E. unfold Home.filteredPhotos, rotatedPhotos.
  rewrite getRotatedPhotos_eq. cbn [bind].
  rewrite (filterM_pure _ (fun _ => true)).
  - now rewrite filter_true.
  - intros p. unfold searchMatch. now rewrite E.
Qed.

Lemma empty_search_shows_rotation_witness :
  Home.filteredPhotos (fun s => s) (emptyHomepage soloPhotos)
  = rotatedPhotos (emptyHomepage soloPhotos).
Proof. apply empty_search_shows_rotation. reflexivity. Defined.

(** X9. Whatever is typed in the search box, the homepage list is computed
    without an error and is the rotation with some photos left out: every
    photo shown is public, the list is still ordered newest first and it
    holds at most six team photos. *)
Theorem search_narrows_rotation toLowerCase (st : Homepage) :
  exists rotated shown,
    rotatedPhotos st = Normal rotated
    /\ Home.filteredPhotos toLowerCase st = Normal shown
    /\ shown
       = filter (fun p =>
                   returned (searchMatch toLowerCase (searchQuery st) p))
           rotated
    /\ Forall (fun p => visibility p = "public") shown
    /\ StronglySorted (newerFirst dateOrZero) shown
    /\ length (filter isTeam shown) <= 6.
Proof.
  unfold Home.filteredPhotos, rotatedPhotos.
  rewrite getRotatedPhotos_eq. cbn [bind].
  rewrite filterM_returned by apply searchMatch_returns.
  do 2 eexists. do 3 (split; [reflexivity|]). split; [|split].
  - apply Forall_forall. intros p Hp. apply filter_In in Hp as [Hp _].
    apply (proj1 (byNewest_sort_In _ _)) in Hp.
    apply selection_In in Hp as (_ & Hv & _). now apply isPublic_true.
  - apply StronglySorted_filter.
    exact (Array_sort_sorted dateOrZero (selection (photos st))).
  - rewrite filter_comm.
    etransitivity; [apply filter_length_le|].
    rewrite (Permutation_length
               (Permutation_filter isTeam _ _
                  (byNewest_sort_perm (selection (photos st))))).
    rewrite selection_team. apply seed_length.
Qed.

(** X10. Picking a player in the autocomplete list keeps every photo of the
    rotation that is tagged with that player. *)
Theorem picked_player_photos_shown toLowerCase (st : Homepage)
    (player : Players.Player) rotated p :
  rotatedPhotos st = Normal rotated ->
  In p rotated ->
  In (Players.name player) (or_empty (tags p)) ->
  exists shown,
    Home.filteredPhotos toLowerCase (Home.pickSuggestion player st)
    = Normal shown
    /\ In p shown.
Proof.
  intros Hrot Hp Htag. unfold Home.filteredPhotos.
  change (rotatedPhotos (Home.pickSuggestion player st))
    with (rotatedPhotos st).
  rewrite Hrot. cbn [bind].
  rewrite filterM_returned by apply searchMatch_returns.
  eexists. split; [reflexivity|].
  apply filter_In. split; [assumption|].
  cbn [Home.pickSuggestion searchQuery]. unfold searchMatch.
  destruct (String.eqb (Players.name player) ""); [reflexivity|].
  destruct (_ && _)%bool; [reflexivity|].
  destruct (tags p) as [a|]; [|destruct Htag]. simpl in *.
  replace (existsb _ a) with true; [reflexivity|].
  symmetry. apply existsb_exists. exists (Players.name player).
  split; [assumption | apply str_includes_refl].
Qed.

Lemma picked_player_photos_shown_witness :
  exists shown,
    Home.filteredPhotos (fun s => s)
      (Home.pickSuggestion (Players.mkPlayer "4" "Cole Thomas")
         (emptyHomepage
            [publicPhoto "c1" (Some ["Cole Thomas"; "Thad Clark"]) None]))
    = Normal shown
    /\ In (publicPhoto "c1" (Some ["Cole Thomas"; "Thad Clark"]) None) shown.
Proof.
  eapply picked_player_photos_shown.
  - vm_compute. reflexivity.
  - now left.
  - now left.
Defined.

(** ** Homepage: lightbox navigation *)

Lemma navigateLightbox_keeps fp i st :
  isLightboxOpen st = true ->
  (0 <= currentPhotoIndex st < Z.of_nat (length fp))%Z ->
  selectedPhotoForLightbox st
  = nth_error fp (Z.to_nat (currentPhotoIndex st)) ->
  let st' := Home.navigateLightbox fp i st in
  isLightboxOpen st' = true
  /\ (0 <= currentPhotoIndex st' < Z.of_nat (length fp))%Z
  /\ selectedPhotoForLightbox st'
     = nth_error fp (Z.to_nat (currentPhotoIndex st'))
  /\ photos st' = photos st /\ searchQuery st' = searchQuery st.
Proof.
  intros Hopen Hidx Hsel. unfold Home.navigateLightbox.
  destruct (Z.leb_spec 0 i), (Z.ltb_spec i (Z.of_nat (length fp)));
    simpl; repeat split; auto; try lia.
Qed.

(** X11. Once a photo of the displayed list is opened at its index, any series
    of navigation requests, in range or not, leaves the lightbox open on
    the photo of the list at the current index, and the index in range;
    the snapshot and the search text are not touched. *)
Theorem lightbox_stays_on_listed_photo (fp : list Photo) photo index
    (st : Homepage) (requests : list Z) :
  (0 <= index)%Z ->
  nth_error fp (Z.to_nat index) = Some photo ->
  isLightboxOpen
    (Home.navigateAll fp requests (Home.openLightbox photo index st)) = true
  /\ (0 <= currentPhotoIndex
             (Home.navigateAll fp requests (Home.openLightbox photo index st))
      < Z.of_nat (length fp))%Z
  /\ selectedPhotoForLightbox
       (Home.navigateAll fp requests (Home.openLightbox photo index st))
     = nth_error fp
         (Z.to_nat
            (currentPhotoIndex
               (Home.navigateAll fp requests
                  (Home.openLightbox photo index st))))
  /\ selectedPhotoForLightbox
       (Home.navigateAll fp requests (Home.openLightbox photo index st))
     <> None
  /\ photos (Home.navigateAll fp requests (Home.openLightbox photo index st))
     = photos st
  /\ searchQuery
       (Home.navigateAll fp requests (Home.openLightbox photo index st))
     = searchQuery st.
Proof.
  intros Hidx Hnth. unfold Home.navigateAll.
  assert (Hlt : (index < Z.of_nat (length fp))%Z).
  { assert (H : Z.to_nat index < length fp)
      by (apply nth_error_Some; congruence). lia. }
  set (s0 := Home.openLightbox photo index st).
  assert (Hinv : isLightboxOpen s0 = true
                 /\ (0 <= currentPhotoIndex s0 < Z.of_nat (length fp))%Z
                 /\ selectedPhotoForLightbox s0
                    = nth_error fp (Z.to_nat (currentPhotoIndex s0))
                 /\ photos s0 = photos st
                 /\ searchQuery s0 = searchQuery st).
  { subst s0. simpl. repeat split; auto; lia. }
  clearbody s0. revert s0 Hinv.
  induction requests as [|i requests IH]; intros s0 Hinv; cbn [fold_left].
  - destruct Hinv as (Ho & Hi & Hs & Hp & Hq).
    repeat split; auto; try lia.
    rewrite Hs. apply nth_error_Some. lia.
  - apply IH. destruct Hinv as (Ho & Hi & Hs & Hp & Hq).
    destruct (navigateLightbox_keeps fp i s0 Ho Hi Hs)
      as (Ho' & Hi' & Hs' & Hp' & Hq').
    repeat split; auto; try lia; congruence.
Qed.

Lemma lightbox_stays_on_listed_photo_witness :
  isLightboxOpen
    (Home.navigateAll [oldPhoto; duoPhoto] [2; 0; (-1); 1; 5]%Z
       (Home.openLightbox duoPhoto 1 (emptyHomepage []))) = true
  /\ selectedPhotoForLightbox
       (Home.navigateAll [oldPhoto; duoPhoto] [2; 0; (-1); 1; 5]%Z
          (Home.openLightbox duoPhoto 1 (emptyHomepage []))) <> None.
Proof.
  destruct (lightbox_stays_on_listed_photo [oldPhoto; duoPhoto] duoPhoto 1
              (emptyHomepage []) [2; 0; (-1); 1; 5]%Z)
    as (H1 & _ & _ & H4 & _); [lia | reflexivity |].
  split; assumption.
Defined.

(** X12. When the lightbox shows the photo found at the current index of the
    displayed list and there is a next photo, the right arrow followed by
    the left arrow brings the lightbox back to the state it was in. *)
Theorem next_then_previous (fp : list Photo) (st : Homepage) :
  (0 <= currentPhotoIndex st)%Z ->
  (currentPhotoIndex st + 1 < Z.of_nat (length fp))%Z ->
  selectedPhotoForLightbox st
  = nth_error fp (Z.to_nat (currentPhotoIndex st)) ->
  Home.previous fp (Home.next fp st) = st
  /\ selectedPhotoForLightbox (Home.next fp st)
     = nth_error fp (S (Z.to_nat (currentPhotoIndex st))).
Proof.
  intros H0 H1 Hsel. unfold Home.previous, Home.next, Home.navigateLightbox.
  destruct (Z.leb_spec 0 (currentPhotoIndex st + 1)); [|lia].
  destruct (Z.ltb_spec (currentPhotoIndex st + 1) (Z.of_nat (length fp)));
    [|lia].
  cbn [andb currentPhotoIndex selectedPhotoForLightbox].
  replace (currentPhotoIndex st + 1 - 1)%Z with (currentPhotoIndex st)
    by lia.
  destruct (Z.leb_spec 0 (currentPhotoIndex st)); [|lia].
  destruct (Z.ltb_spec (currentPhotoIndex st) (Z.of_nat (length fp)));
    [|lia].
  cbn [andb]. split.
  - rewrite <- Hsel. destruct st; reflexivity.
  - f_equal. lia.
Qed.

Lemma next_then_previous_witness :
  Home.previous [oldPhoto; duoPhoto]
    (Home.next [oldPhoto; duoPhoto]
       (Home.openLightbox oldPhoto 0 (emptyHomepage [])))
  = Home.openLightbox oldPhoto 0 (emptyHomepage [])
  /\ selectedPhotoForLightbox
       (Home.next [oldPhoto; duoPhoto]
          (Home.openLightbox oldPhoto 0 (emptyHomepage [])))
     = nth_error [oldPhoto; duoPhoto] 1.
Proof.
  apply (next_then_previous [oldPhoto; duoPhoto]
           (Home.openLightbox oldPhoto 0 (emptyHomepage [])));
    simpl; [lia | lia | reflexivity].
Defined.

(** ** PhotoGallery *)

Lemma gallery_callback toLowerCase userId (st : Gallery.State) d :
  (let isOwner := Gallery.isOwner userId d in
   let isVisible :=
     (String.eqb (visibility (Gallery.photo d)) "public" || isOwner)%bool in
   tagMatch <-
     (if String.eqb (Gallery.tagFilter st) "" then Normal true
      else and_then (tags (Gallery.photo d))
             (includes_of (tags (Gallery.photo d)) (Gallery.tagFilter st))) ;;
   searchMatch <-
     searchMatch toLowerCase (Gallery.searchQuery st) (Gallery.photo d) ;;
   Normal (isVisible && tagMatch && searchMatch)%bool)
  = Normal
      ((isPublic (Gallery.photo d) || Gallery.isOwner userId d)
       && (String.eqb (Gallery.tagFilter st) ""
           || hasPlayer (Gallery.tagFilter st) (Gallery.photo d))
       && returned
            (searchMatch toLowerCase (Gallery.searchQuery st)
               (Gallery.photo d)))%bool.
Proof.
  cbv zeta. unfold isPublic, hasPlayer.
  destruct (searchMatch_returns toLowerCase (Gallery.searchQuery st)
              (Gallery.photo d)) as [b ->].
  destruct (String.eqb (Gallery.tagFilter st) "");
    destruct (tags (Gallery.photo d)); reflexivity.
Qed.

Lemma isOwner_true userId d :
  Gallery.isOwner userId d = true ->
  exists u, userId = Some u /\ u <> "" /\ Gallery.uploadedBy d = Some u.
Proof.
  unfold Gallery.isOwner. destruct userId as [u|]; [|discriminate].
  intros H. apply andb_true_iff in H as [Hu Ho].
  destruct (Gallery.uploadedBy d) as [o|]; [|discriminate].
  apply String.eqb_eq in Ho. subst o. exists u. repeat split.
  intros ->. discriminate.
Qed.

(** X13. The gallery never lists a private photo of somebody else: whatever
    the filters, a listed photo is public or was uploaded by the signed-in
    user; nobody signed in sees public photos only. The list is computed
    without an error. *)
Theorem gallery_hides_private_photos toLowerCase userId
    (st : Gallery.State) :
  exists shown,
    Gallery.filteredPhotos toLowerCase userId st = Normal shown
    /\ Forall (fun d =>
                 In d (Gallery.photos st)
                 /\ (visibility (Gallery.photo d) = "public"
                     \/ exists u, userId = Some u /\ u <> ""
                                  /\ Gallery.uploadedBy d = Some u)) shown
    /\ (userId = None ->
        Forall (fun d => visibility (Gallery.photo d) = "public") shown).
Proof.
  unfold Gallery.filteredPhotos.
  rewrite (filterM_pure _ _ _ (gallery_callback toLowerCase userId st)).
  eexists. split; [reflexivity|]. split.
  - apply Forall_forall. intros d Hd. apply filter_In in Hd as [Hd Hc].
    split; [assumption|].
    apply andb_true_iff in Hc as [Hc _]. apply andb_true_iff in Hc as [Hc _].
    apply orb_true_iff in Hc as [Hc|Hc].
    + left. now apply isPublic_true.
    + right. now apply isOwner_true.
  - intros ->. apply Forall_forall. intros d Hd.
    apply filter_In in Hd as [_ Hc].
    apply andb_true_iff in Hc as [Hc _]. apply andb_true_iff in Hc as [Hc _].
    apply orb_true_iff in Hc as [Hc|Hc]; [|discriminate].
    now apply isPublic_true.
Qed.

(** X14. With a player chosen in the filter bar, every listed photo carries
    that tag. *)
Theorem gallery_tag_filter toLowerCase userId (st : Gallery.State) :
  Gallery.tagFilter st <> "" ->
  exists shown,
    Gallery.filteredPhotos toLowerCase userId st = Normal shown
    /\ Forall (fun d =>
                 In (Gallery.tagFilter st) (or_empty (tags (Gallery.photo d))))
         shown.
Proof.
  intros Hne. unfold Gallery.filteredPhotos.
  rewrite (filterM_pure _ _ _ (gallery_callback toLowerCase userId st)).
  eexists. split; [reflexivity|].
  apply Forall_forall. intros d Hd. apply filter_In in Hd as [_ Hc].
  apply andb_true_iff in Hc as [Hc _]. apply andb_true_iff in Hc as [_ Hc].
  apply orb_true_iff in Hc as [Hc|Hc].
  - apply String.eqb_eq in Hc. contradiction.
  - now apply hasPlayer_In.
Qed.

(** X15. Without tag filter and search text the gallery lists exactly the
    public photos and the user's own, in the order of the snapshot. *)
Theorem gallery_unfiltered toLowerCase userId (st : Gallery.State) :
  Gallery.tagFilter st = "" ->
  Gallery.searchQuery st = "" ->
  Gallery.filteredPhotos toLowerCase userId st
  = Normal (filter (fun d => isPublic (Gallery.photo d)
                             || Gallery.isOwner userId d)%bool
              (Gallery.photos st)).
Proof.
  intros Ht Hs. unfold Gallery.filteredPhotos.
  rewrite (filterM_pure _ _ _ (gallery_callback toLowerCase userId st)).
  f_equal. apply filter_ext. intros d.
  unfold searchMatch. rewrite Ht, Hs. simpl.
  now rewrite !andb_true_r.
Qed.

Lemma gallery_tag_filter_witness :
  exists shown,
    Gallery.filteredPhotos (fun s => s) (Some "alice")
      (galleryState galleryDocs "A" "") = Normal shown
    /\ Forall (fun d => In "A" (or_empty (tags (Gallery.photo d)))) shown.
Proof.
  apply (gallery_tag_filter (fun s => s) (Some "alice")
           (galleryState galleryDocs "A" "")).
  discriminate.
Defined.

Lemma gallery_unfiltered_witness :
  Gallery.filteredPhotos (fun s => s) (Some "alice")
    (galleryState galleryDocs "" "")
  = Normal (filter (fun d => isPublic (Gallery.photo d)
                             || Gallery.isOwner (Some "alice") d)%bool
              galleryDocs).
Proof.
  apply (gallery_unfiltered (fun s => s) (Some "alice")
           (galleryState galleryDocs "" "")); reflexivity.
Defined.

(** X16. A snapshot is stored newest first (a missing timestamp counting as the
    epoch) with documents of equal date in the order received, loading
    ends, and the list the gallery then shows is ordered the same way. *)
Theorem gallery_snapshot_newest_first toLowerCase userId
    (fetchedPhotos : list Gallery.Doc) (st : Gallery.State) :
  Permutation (Gallery.photos (Gallery.onSnapshot fetchedPhotos st))
    fetchedPhotos
  /\ StronglySorted (newerFirst (fun d => dateOrZero (Gallery.photo d)))
       (Gallery.photos (Gallery.onSnapshot fetchedPhotos st))
  /\ (forall k,
        filter (fun d => (dateOrZero (Gallery.photo d) =? k)%Z)
          (Gallery.photos (Gallery.onSnapshot fetchedPhotos st))
        = filter (fun d => (dateOrZero (Gallery.photo d) =? k)%Z)
            fetchedPhotos)
  /\ Gallery.loading (Gallery.onSnapshot fetchedPhotos st) = false
  /\ exists shown,
       Gallery.filteredPhotos toLowerCase userId
         (Gallery.onSnapshot fetchedPhotos st) = Normal shown
       /\ StronglySorted (newerFirst (fun d => dateOrZero (Gallery.photo d)))
            shown.
Proof.
  pose proof (Array_sort_sorted (fun d => dateOrZero (Gallery.photo d))
                fetchedPhotos) as Hs.
  split; [exact (Array_sort_perm _ fetchedPhotos)|].
  split; [exact Hs|].
  split; [intros k; exact (Array_sort_stable _ k fetchedPhotos)|].
  split; [reflexivity|].
  unfold Gallery.filteredPhotos.
  rewrite (filterM_pure _ _ _ (gallery_callback toLowerCase userId _)).
  eexists. split; [reflexivity|].
  apply StronglySorted_filter. exact Hs.
Qed.

(** X17. The filter bar offers each tag of the snapshot once, and it takes the
    tags from every photo, visible to the user or not. *)
Theorem gallery_all_tags (st : Gallery.State) :
  NoDup (Gallery.allTags st)
  /\ forall tag,
       In tag (Gallery.allTags st)
       <-> exists d, In d (Gallery.photos st)
                     /\ In tag (or_empty (tags (Gallery.photo d))).
Proof.
  split; [apply Array_from_Set_NoDup|].
  intros tag. unfold Gallery.allTags.
  rewrite Array_from_Set_In, in_flat_map. reflexivity.
Qed.

(** ** Selections *)

Lemma toggle_In_same x prev : In x (toggle x prev) <-> ~ In x prev.
Proof.
  unfold toggle. destruct (Set_has prev x) eqn:E.
  - apply Set_has_In in E. split.
    + intros H. apply filter_In in H as [_ H].
      now rewrite String.eqb_refl in H.
    + contradiction.
  - apply Set_has_false in E. split; [trivial|].
    intros _. apply in_or_app. right. now left.
Qed.

Lemma toggle_In_other x y prev : y <> x -> In y (toggle x prev) <-> In y prev.
Proof.
  intros Hne. unfold toggle. destruct (Set_has prev x).
  - rewrite filter_In. split; [tauto|]. intros H. split; [assumption|].
    apply negb_true_iff. now apply String.eqb_neq.
  - rewrite in_app_iff. simpl. split; [|tauto].
    intros [H|[H|[]]]; [assumption|]. now subst.
Qed.

Lemma toggle_NoDup x prev : NoDup prev -> NoDup (toggle x prev).
Proof.
  intros H. unfold toggle. destruct (Set_has prev x) eqn:E.
  - now apply NoDup_filter.
  - apply NoDup_snoc; [assumption|]. now apply Set_has_false.
Qed.

Lemma filter_not_in x prev :
  ~ In x prev -> filter (fun y => negb (String.eqb y x)) prev = prev.
Proof.
  intros H. apply filter_all. apply Forall_forall. intros y Hy.
  apply negb_true_iff, String.eqb_neq. intros ->. contradiction.
Qed.

Lemma selection_after_toggles ids (st : Gallery.State) :
  Gallery.selectedPhotos
    (fold_left (fun s i => Gallery.togglePhotoSelection i s) ids st)
  = fold_left (fun sel i => toggle i sel) ids (Gallery.selectedPhotos st).
Proof.
  revert st. induction ids as [|i ids IH]; intros st; [reflexivity|].
  cbn [fold_left]. now rewrite IH.
Qed.

Lemma toggles_parity ids x : forall sel,
  In x (fold_left (fun sel i => toggle i sel) ids sel)
  <-> (Nat.odd (count_occ string_dec ids x) = negb (Set_has sel x)).
Proof.
  induction ids as [|i ids IH]; intros sel; cbn [fold_left count_occ].
  - rewrite <- Set_has_In, Nat.odd_0.
    destruct (Set_has sel x); simpl; split; congruence.
  - rewrite IH. destruct (string_dec i x) as [->|Hne].
    + rewrite Nat.odd_succ, <- Nat.negb_odd.
      assert (H : Set_has (toggle x sel) x = negb (Set_has sel x)).
      { destruct (Set_has sel x) eqn:E.
        - apply Set_has_false. rewrite toggle_In_same.
          apply Set_has_In in E. tauto.
        - apply Set_has_In, toggle_In_same. now apply Set_has_false. }
      rewrite H.
      destruct (Nat.odd _), (Set_has sel x); simpl; split; congruence.
    + assert (H : Set_has (toggle i sel) x = Set_has sel x).
      { destruct (Set_has sel x) eqn:E.
        - apply Set_has_In, toggle_In_other; [congruence|].
          now apply Set_has_In.
        - apply Set_has_false. rewrite toggle_In_other by congruence.
          now apply Set_has_false. }
      now rewrite H.
Qed.

(** X18. Starting from a cleared selection, a photo is selected exactly when
    its checkbox was clicked an odd number of times, and the selection
    holds no id twice, so the count shown is the number of photos. *)
Theorem selection_by_click_parity (ids : list string) (st : Gallery.State) :
  NoDup (Gallery.selectedPhotos
           (fold_left (fun s i => Gallery.togglePhotoSelection i s) ids
              (Gallery.clearSelection st)))
  /\ forall photoId,
       In photoId
         (Gallery.selectedPhotos
            (fold_left (fun s i => Gallery.togglePhotoSelection i s) ids
               (Gallery.clearSelection st)))
       <-> Nat.odd (count_occ string_dec ids photoId) = true.
Proof.
  rewrite selection_after_toggles. cbn [Gallery.clearSelection
    Gallery.selectedPhotos]. split.
  - generalize (NoDup_nil string). generalize (@nil string).
    induction ids as [|i ids IH]; intros sel Hsel; cbn [fold_left];
      [assumption|].
    apply IH. now apply toggle_NoDup.
  - intros photoId. now rewrite toggles_parity.
Qed.

(** X19. Clicking the checkbox of an unselected photo twice restores the
    gallery state; on a selected photo the two clicks move its id to the
    end of the selection. *)
Theorem toggle_photo_twice (photoId : string) (st : Gallery.State) :
  (~ In photoId (Gallery.selectedPhotos st) ->
   Gallery.togglePhotoSelection photoId
     (Gallery.togglePhotoSelection photoId st) = st)
  /\ (In photoId (Gallery.selectedPhotos st) ->
      Gallery.selectedPhotos
        (Gallery.togglePhotoSelection photoId
           (Gallery.togglePhotoSelection photoId st))
      = filter (fun y => negb (String.eqb y photoId))
          (Gallery.selectedPhotos st) ++ [photoId]).
Proof.
  destruct st as [ph lo me sel sd sp il ci tf sq ss].
  unfold Gallery.togglePhotoSelection. cbn. split; intros H.
  - f_equal. unfold toggle at 2.
    rewrite (proj2 (Set_has_false sel photoId) H).
    unfold toggle.
    assert (E : Set_has (sel ++ [photoId]) photoId = true).
    { apply Set_has_In, in_or_app. right. now left. }
    rewrite E, filter_app, filter_not_in by assumption.
    simpl. rewrite String.eqb_refl. simpl. apply app_nil_r.
  - unfold toggle at 2. rewrite (proj2 (Set_has_In sel photoId) H).
    unfold toggle.
    assert (E : Set_has (filter (fun y => negb (String.eqb y photoId)) sel)
                  photoId = false).
    { apply Set_has_false. intros Hin. apply filter_In in Hin as [_ Hin].
      now rewrite String.eqb_refl in Hin. }
    now rewrite E.
Qed.

(** ** PhotoUpload *)

Lemma filteredPlayers_In toLowerCase (st : Upload.State) player :
  In player (Upload.filteredPlayers toLowerCase st) ->
  In player Players.PLAYERS
  /\ ~ In (Players.name player) (Upload.selectedPlayers st).
Proof.
  unfold Upload.filteredPlayers. intros H.
  apply filter_In in H as [Hp H]. split; [assumption|].
  apply andb_true_iff in H as [_ H]. apply negb_true_iff in H.
  now apply Set_has_false.
Qed.

(** X20. The dropdown offers roster players that are not selected yet; picking
    one appends its name to the selection, clears the search text, closes
    the dropdown, and the player is no longer offered. *)
Theorem pick_adds_unselected_player toLowerCase (st : Upload.State)
    (player : Players.Player) :
  In player (Upload.filteredPlayers toLowerCase st) ->
  In player Players.PLAYERS
  /\ ~ In (Players.name player) (Upload.selectedPlayers st)
  /\ Upload.selectedPlayers (Upload.pickPlayer player st)
     = Upload.selectedPlayers st ++ [Players.name player]
  /\ Upload.playerSearch (Upload.pickPlayer player st) = ""
  /\ Upload.showPlayerDropdown (Upload.pickPlayer player st) = false
  /\ ~ In player
         (Upload.filteredPlayers toLowerCase (Upload.pickPlayer player st)).
Proof.
  intros H. destruct (filteredPlayers_In _ _ _ H) as [Hp Hn].
  assert (E : Upload.selectedPlayers (Upload.pickPlayer player st)
              = Upload.selectedPlayers st ++ [Players.name player]).
  { cbn. unfold toggle.
    now rewrite (proj2 (Set_has_false _ _) Hn). }
  repeat split; try assumption.
  intros H'. apply filteredPlayers_In in H' as [_ H']. apply H'.
  rewrite E. apply in_or_app. right. now left.
Qed.

Lemma pick_adds_unselected_player_witness :
  Upload.selectedPlayers
    (Upload.pickPlayer (Players.mkPlayer "13" "Thad Clark") pickedForm)
  = Upload.selectedPlayers pickedForm ++ ["Thad Clark"].
Proof.
  apply (pick_adds_unselected_player (fun s => s) pickedForm
           (Players.mkPlayer "13" "Thad Clark")).
  vm_compute. tauto.
Defined.

Lemma upload_selection_invariant toLowerCase (st : Upload.State) :
  Upload.reachable toLowerCase st ->
  NoDup (Upload.selectedPlayers st)
  /\ incl (Upload.selectedPlayers st) (map Players.name Players.PLAYERS).
Proof.
  remember (map Players.name Players.PLAYERS) as roster eqn:Hroster.
  induction 1 as [|st st' _ [Hnd Hin] Hstep].
  - split; [constructor | intros x []].
  - destruct Hstep as [st f|st s|st v _|st s|st|st player _ Hp
                       |st playerName _|st userId ready now outcome];
      try (split; assumption).
    + cbn. split; [now apply toggle_NoDup|].
      intros y Hy. destruct (string_dec y (Players.name player)) as [->|Hne].
      * subst roster. apply in_map. now apply filteredPlayers_In in Hp.
      * apply Hin. now apply toggle_In_other in Hy.
    + cbn. split; [now apply NoDup_filter|].
      intros y Hy. apply filter_In in Hy as [Hy _]. now apply Hin.
    + unfold Upload.handleUpload.
      destruct (Upload.file st) as [fileObj|], userId as [uid|], ready;
        try (split; assumption).
      destruct (String.eqb uid ""); [split; assumption|].
      destruct outcome; cbn; [|split; assumption].
      split; [constructor | intros x []].
Qed.

(** X21. Whatever the user did in the form before, the document an upload adds
    is tagged with distinct roster names, at most thirteen, is attributed
    to the signed-in user and starts with no likes; the form is then
    cleared. *)
Theorem uploaded_tags_distinct_roster_names toLowerCase (st : Upload.State)
    userId isAuthReady now outcome st' (doc : Upload.NewPhoto) :
  Upload.reachable toLowerCase st ->
  Upload.handleUpload userId isAuthReady now outcome st = (st', Some doc) ->
  NoDup (Upload.tags doc)
  /\ incl (Upload.tags doc) (map Players.name Players.PLAYERS)
  /\ length (Upload.tags doc) <= 13
  /\ userId = Some (Upload.uploadedBy doc)
  /\ Upload.likesCount doc = 0%Z
  /\ Upload.newVisibility doc = Upload.visibility st
  /\ Upload.selectedPlayers st' = []
  /\ Upload.file st' = None.
Proof.
  intros Hreach Hup.
  destruct (upload_selection_invariant _ _ Hreach) as [Hnd Hin].
  unfold Upload.handleUpload in Hup.
  destruct (Upload.file st) as [fileObj|], userId as [uid|], isAuthReady;
    try discriminate.
  destruct (String.eqb uid ""); [discriminate|].
  destruct outcome; [|discriminate].
  injection Hup as <- <-. cbn.
  repeat split; try assumption.
  change 13 with (length (map Players.name Players.PLAYERS)).
  now apply NoDup_incl_length.
Qed.

Lemma uploaded_tags_distinct_roster_names_witness :
  NoDup ["Cole Thomas"]
  /\ Upload.handleUpload (Some "u1") true "1700000000000"
       (Upload.Stored "https://photos.example/team.jpg") pickedForm
     = (Upload.mkState None "" false "Photo uploaded successfully!" "public"
          [] false "",
        Some (Upload.mkNewPhoto "https://photos.example/team.jpg" "" "u1"
                "1700000000000_team.jpg" 0%Z "public" ["Cole Thomas"])).
Proof.
  split; [|reflexivity].
  refine (proj1 (uploaded_tags_distinct_roster_names (fun s => s) pickedForm
                   (Some "u1") true "1700000000000"
                   (Upload.Stored "https://photos.example/team.jpg")
                   _ _ _ eq_refl)).
  unfold pickedForm.
  eapply Upload.reach_step;
    [eapply Upload.reach_step;
       [eapply Upload.reach_step; [apply Upload.reach_initial|]|]|].
  - apply Upload.step_file.
  - apply Upload.step_focus.
  - apply Upload.step_pick; [reflexivity | vm_compute; tauto].
Defined.

(** X22. An upload that adds no document, be it refused or failed, leaves the
    chosen file, caption, visibility and players in the form. *)
Theorem upload_without_document_keeps_form (st : Upload.State)
    userId isAuthReady now outcome :
  snd (Upload.handleUpload userId isAuthReady now outcome st) = None ->
  Upload.file (fst (Upload.handleUpload userId isAuthReady now outcome st))
  = Upload.file st
  /\ Upload.caption
       (fst (Upload.handleUpload userId isAuthReady now outcome st))
     = Upload.caption st
  /\ Upload.visibility
       (fst (Upload.handleUpload userId isAuthReady now outcome st))
     = Upload.visibility st
  /\ Upload.selectedPlayers
       (fst (Upload.handleUpload userId isAuthReady now outcome st))
     = Upload.selectedPlayers st
  /\ Upload.message
       (fst (Upload.handleUpload userId isAuthReady now outcome st)) <> "".
Proof.
  unfold Upload.handleUpload.
  destruct (Upload.file st) as [fileObj|], userId as [uid|], isAuthReady;
    cbn; intros H; repeat split; try discriminate.
  all: destruct (String.eqb uid ""); cbn in *;
    try (repeat split; discriminate).
  all: destruct outcome; cbn in *; try discriminate; try reflexivity.
Qed.

Lemma upload_without_document_keeps_form_witness :
  Upload.selectedPlayers
    (fst (Upload.handleUpload None true "1700000000000"
            (Upload.Stored "https://photos.example/team.jpg") pickedForm))
  = Upload.selectedPlayers pickedForm.
Proof.
  apply (upload_without_document_keeps_form pickedForm None true
           "1700000000000" (Upload.Stored "https://photos.example/team.jpg")).
  reflexivity.
Defined.

(** ** Lightbox: the comment list *)

Lemma sort_insert_ext {A} (cmp cmp' : A -> A -> Z) x l :
  (forall a b, cmp a b = cmp' a b) ->
  sort_insert cmp x l = sort_insert cmp' x l.
Proof.
  intros H. induction l as [|y l IH]; simpl; [reflexivity|].
  now rewrite H, IH.
Qed.

Lemma Array_sort_ext {A} (cmp cmp' : A -> A -> Z) l :
  (forall a b, cmp a b = cmp' a b) -> Array_sort cmp l = Array_sort cmp' l.
Proof.
  intros H. induction l as [|x l IH]; simpl; [reflexivity|].
  now rewrite IH, (sort_insert_ext cmp cmp').
Qed.

Lemma byOldest_sort l :
  Lightbox.onCommentsSnapshot l
  = Array_sort (keyCompare (fun c => (- Lightbox.dateOrZero c)%Z)) l.
Proof.
  apply Array_sort_ext. intros a b.
  unfold Lightbox.byOldest, keyCompare. lia.
Qed.

(** X23. The comments are shown oldest first, a comment without a timestamp
    counting as dated at the epoch: such a comment comes before every
    comment dated after the epoch. Comments of equal date keep the order
    in which the snapshot delivered them, and none is lost or repeated. *)
Theorem comments_oldest_first (fetchedComments : list Lightbox.Comment) :
  Permutation (Lightbox.onCommentsSnapshot fetchedComments) fetchedComments
  /\ StronglySorted
       (fun a b => (Lightbox.dateOrZero a <= Lightbox.dateOrZero b)%Z)
       (Lightbox.onCommentsSnapshot fetchedComments)
  /\ (forall k,
        filter (fun c => (Lightbox.dateOrZero c =? k)%Z)
          (Lightbox.onCommentsSnapshot fetchedComments)
        = filter (fun c => (Lightbox.dateOrZero c =? k)%Z) fetchedComments)
  /\ (forall l1 x l2 y ms,
        Lightbox.onCommentsSnapshot fetchedComments = l1 ++ x :: l2 ->
        In y l2 -> Lightbox.timestamp y = None ->
        Lightbox.timestamp x = Some ms -> (ms <= 0)%Z).
Proof.
  rewrite byOldest_sort.
  set (key := fun c => (- Lightbox.dateOrZero c)%Z).
  pose proof (Array_sort_sorted key fetchedComments) as Hs.
  assert (Hs' : StronglySorted
                  (fun a b =>
                     (Lightbox.dateOrZero a <= Lightbox.dateOrZero b)%Z)
                  (Array_sort (keyCompare key) fetchedComments)).
  { revert Hs. generalize (Array_sort (keyCompare key) fetchedComments).
    induction 1 as [|x l Hl IH Hx]; constructor; [assumption|].
    eapply Forall_impl; [|exact Hx]. unfold newerFirst, key. intros; lia. }
  split; [apply Array_sort_perm|]. split; [exact Hs'|]. split.
  - intros k.
    rewrite (filter_ext _ (fun c => (key c =? - k)%Z)).
    + rewrite (Array_sort_stable key). apply filter_ext.
      intros c. unfold key.
      destruct (Z.eqb_spec (- Lightbox.dateOrZero c) (- k)),
               (Z.eqb_spec (Lightbox.dateOrZero c) k); try reflexivity; lia.
    + intros c. unfold key.
      destruct (Z.eqb_spec (- Lightbox.dateOrZero c) (- k)),
               (Z.eqb_spec (Lightbox.dateOrZero c) k); try reflexivity; lia.
  - intros l1 x l2 y ms E Hy Hnone Hsome. rewrite E in Hs'.
    apply StronglySorted_suffix in Hs'.
    apply StronglySorted_inv in Hs' as [_ Hs'].
    rewrite Forall_forall in Hs'. specialize (Hs' y Hy).
    unfold Lightbox.dateOrZero in Hs'. now rewrite Hnone, Hsome in Hs'.
Qed.

(** ** Auth: the e-mail check *)

Module RegexFacts.
Import Regex.

Lemma Seq_inv r1 r2 s :
  Matches (Seq r1 r2) s <->
  exists s1 s2, s = s1 ++ s2 /\ Matches r1 s1 /\ Matches r2 s2.
Proof.
  split.
  - inversion 1; subst. eauto.
  - intros (s1 & s2 & -> & H1 & H2). now constructor.
Qed.

Lemma Alt_inv r1 r2 s : Matches (Alt r1 r2) s <-> Matches r1 s \/ Matches r2 s.
Proof.
  split.
  - inversion 1; subst; auto.
  - intros [H|H]; [now apply MAltL | now apply MAltR].
Qed.

Lemma Class_inv p s : Matches (Class p) s <-> exists c, s = [c] /\ p c = true.
Proof.
  split.
  - inversion 1; subst. eauto.
  - intros (c & -> & H). now constructor.
Qed.

Lemma Star_cons_inv r c s :
  Matches (Star r) (c :: s) ->
  exists s1 s2, s = s1 ++ s2 /\ Matches r (c :: s1) /\ Matches (Star r) s2.
Proof.
  intros H. remember (Star r) as r' eqn:Er. remember (c :: s) as cs eqn:Es.
  revert c s Es.
  induction H as [| | | | | |r0 s1 s2 H1 _ H2 IH2]; try discriminate.
  injection Er as ->. intros c s Es.
  destruct s1 as [|c1 s1]; simpl in Es.
  - now apply IH2.
  - injection Es as -> <-. eauto.
Qed.

Lemma nullable_spec r : nullable r = true <-> Matches r [].
Proof.
  induction r as [| |p|r1 IH1 r2 IH2|r1 IH1 r2 IH2|r IH]; simpl.
  - split; [discriminate | inversion 1].
  - split; [constructor | reflexivity].
  - split; [discriminate | inversion 1].
  - rewrite andb_true_iff, IH1, IH2, Seq_inv. split.
    + intros [H1 H2]. exists [], []. auto.
    + intros (s1 & s2 & E & H1 & H2). symmetry in E.
      apply app_eq_nil in E as [-> ->]. auto.
  - rewrite orb_true_iff, IH1, IH2, Alt_inv. reflexivity.
  - split; [constructor | reflexivity].
Qed.

Lemma deriv_spec c r : forall s, Matches (deriv c r) s <-> Matches r (c :: s).
Proof.
  induction r as [| |p|r1 IH1 r2 IH2|r1 IH1 r2 IH2|r IH]; intros s; simpl.
  - split; inversion 1.
  - split; inversion 1.
  - rewrite Class_inv. destruct (p c) eqn:E; split.
    + inversion 1; subst. eauto.
    + intros (c' & [= -> ->] & _). constructor.
    + inversion 1.
    + intros (c' & [= -> ->] & H). congruence.
  - assert (Hcons :
      (exists s1 s2, s = s1 ++ s2 /\ Matches (deriv c r1) s1
                     /\ Matches r2 s2)
      <-> (exists s1 s2, c :: s = (c :: s1) ++ s2
                         /\ Matches r1 (c :: s1) /\ Matches r2 s2)).
    { split; intros (s1 & s2 & E & H1 & H2); exists s1, s2.
      - subst. repeat split; [now apply IH1 | assumption].
      - injection E as ->. repeat split; [now apply IH1 | assumption]. }
    destruct (nullable r1) eqn:N.
    + rewrite Alt_inv, !Seq_inv, Hcons, IH2. split.
      * intros [(s1 & s2 & E & H1 & H2)|H].
        -- exists (c :: s1), s2. auto.
        -- exists [], (c :: s). repeat split; [|assumption].
           now apply nullable_spec.
      * intros (s1 & s2 & E & H1 & H2). destruct s1 as [|c1 s1]; simpl in E.
        -- right. now subst.
        -- left. injection E as <- ->. exists s1, s2. auto.
    + rewrite !Seq_inv, Hcons. split.
      * intros (s1 & s2 & E & H1 & H2). exists (c :: s1), s2. auto.
      * intros (s1 & s2 & E & H1 & H2). destruct s1 as [|c1 s1]; simpl in E.
        -- apply nullable_spec in H1. congruence.
        -- injection E as <- ->. exists s1, s2. auto.
  - rewrite !Alt_inv, IH1, IH2. reflexivity.
  - rewrite Seq_inv. split.
    + intros (s1 & s2 & -> & H1 & H2). apply IH in H1.
      change (c :: s1 ++ s2) with ((c :: s1) ++ s2). now constructor.
    + intros H. apply Star_cons_inv in H as (s1 & s2 & -> & H1 & H2).
      exists s1, s2. repeat split; [now apply IH | assumption].
Qed.

Lemma test_spec r s : test r s = true <-> Matches r s.
Proof.
  revert r. induction s as [|c s IH]; intros r; simpl.
  - apply nullable_spec.
  - rewrite IH. apply deriv_spec.
Qed.

Lemma Star_Class p s :
  Matches (Star (Class p)) s <-> Forall (fun c => p c = true) s.
Proof.
  split.
  - induction s as [|c s IH]; intros H; [constructor|].
    apply Star_cons_inv in H as (s1 & s2 & -> & H1 & H2).
    apply Class_inv in H1 as (c' & [= -> ->] & Hp).
    constructor; [assumption | now apply IH].
  - induction 1 as [|c s Hc _ IH]; [constructor|].
    change (c :: s) with ([c] ++ s). constructor; [now constructor|assumption].
Qed.

Lemma Plus_Class p s :
  Matches (Plus (Class p)) s <-> s <> [] /\ Forall (fun c => p c = true) s.
Proof.
  unfold Plus. rewrite Seq_inv. split.
  - intros (s1 & s2 & -> & H1 & H2).
    apply Class_inv in H1 as (c & -> & Hp). apply Star_Class in H2.
    split; [discriminate | now constructor].
  - intros [Hne H]. destruct s as [|c s]; [contradiction|].
    apply Forall_cons_iff in H as [Hc H].
    exists [c], s. repeat split; [now constructor | now apply Star_Class].
Qed.

Lemma Chr_inv c s : Matches (Chr c) s <-> s = [c].
Proof.
  unfold Chr. rewrite Class_inv. split.
  - intros (c' & -> & H). apply N.eqb_eq in H. now subst.
  - intros ->. exists c. split; [reflexivity | apply N.eqb_refl].
Qed.

End RegexFacts.

Lemma valid_email_parts (email : list N) :
  Auth.isValidEmail email = true ->
  exists l d t,
    email = l ++ [Auth.at_sign] ++ d ++ [Auth.dot] ++ t
    /\ l <> [] /\ d <> [] /\ t <> []
    /\ Forall (fun c => Auth.plain c = true) (l ++ d ++ t).
Proof.
  unfold Auth.isValidEmail, Auth.emailPattern.
  rewrite RegexFacts.test_spec. intros H.
  apply RegexFacts.Seq_inv in H as (l & s1 & -> & Hl & H).
  apply RegexFacts.Seq_inv in H as (a & s2 & -> & Ha & H).
  apply RegexFacts.Seq_inv in H as (d & s3 & -> & Hd & H).
  apply RegexFacts.Seq_inv in H as (o & t & -> & Ho & Ht).
  apply RegexFacts.Chr_inv in Ha, Ho. subst a o.
  apply RegexFacts.Plus_Class in Hl as [Hl Hl'], Hd as [Hd Hd'],
    Ht as [Ht Ht'].
  exists l, d, t. repeat split; try assumption.
  rewrite !Forall_app. auto.
Qed.

Lemma parts_valid_email (l d t : list N) :
  l <> [] -> d <> [] -> t <> [] ->
  Forall (fun c => Auth.plain c = true) (l ++ d ++ t) ->
  Auth.isValidEmail (l ++ [Auth.at_sign] ++ d ++ [Auth.dot] ++ t) = true.
Proof.
  intros Hl Hd Ht H. unfold Auth.isValidEmail, Auth.emailPattern.
  rewrite RegexFacts.test_spec.
  rewrite !Forall_app in H. destruct H as (Hl' & Hd' & Ht').
  repeat (apply Regex.MSeq);
    try (apply RegexFacts.Plus_Class; split; assumption);
    now apply RegexFacts.Chr_inv.
Qed.

(** X24. [isValidEmail] accepts exactly the strings of the form
    local [@] domain [.] rest where the three parts are not empty and hold
    neither white space nor [@]. *)
Theorem isValidEmail_spec (email : list N) :
  Auth.isValidEmail email = true
  <-> exists l d t,
        email = l ++ [Auth.at_sign] ++ d ++ [Auth.dot] ++ t
        /\ l <> [] /\ d <> [] /\ t <> []
        /\ Forall (fun c => Auth.plain c = true) (l ++ d ++ t).
Proof.
  split; [apply valid_email_parts|].
  intros (l & d & t & -> & Hl & Hd & Ht & H).
  now apply parts_valid_email.
Qed.

Lemma plain_no_at l :
  Forall (fun c => Auth.plain c = true) l ->
  count_occ N.eq_dec l Auth.at_sign = 0
  /\ Forall (fun c => Auth.isWhiteSpace c = false) l.
Proof.
  induction 1 as [|c l Hc _ [IH1 IH2]]; [split; [reflexivity|constructor]|].
  unfold Auth.plain in Hc. apply negb_true_iff, orb_false_iff in Hc.
  destruct Hc as [Hw Ha]. apply N.eqb_neq in Ha. split.
  - rewrite count_occ_cons_neq; assumption.
  - now constructor.
Qed.

(** X25. An accepted e-mail address holds exactly one [@], no white space and
    at least five code units. *)
Theorem valid_email_shape (email : list N) :
  Auth.isValidEmail email = true ->
  count_occ N.eq_dec email Auth.at_sign = 1
  /\ Forall (fun c => Auth.isWhiteSpace c = false) email
  /\ 5 <= length email.
Proof.
  intros H. apply valid_email_parts in H
    as (l & d & t & -> & Hl & Hd & Ht & H).
  rewrite !Forall_app in H. destruct H as (Hl' & Hd' & Ht').
  apply plain_no_at in Hl' as [Cl Wl], Hd' as [Cd Wd], Ht' as [Ct Wt].
  split; [|split].
  - rewrite !count_occ_app, Cl, Cd, Ct. reflexivity.
  - rewrite !Forall_app. repeat split; try assumption;
      repeat constructor.
  - rewrite !length_app. simpl.
    destruct l, d, t; simpl; try contradiction; lia.
Qed.

Lemma valid_email_shape_witness :
  count_occ N.eq_dec [97; 64; 98; 46; 99]%N Auth.at_sign = 1
  /\ Forall (fun c => Auth.isWhiteSpace c = false) [97; 64; 98; 46; 99]%N
  /\ 5 <= length [97; 64; 98; 46; 99]%N.
Proof. apply valid_email_shape. reflexivity. Defined.

(** X26. [handleAuth] sends at most one request to the authentication service,
    and only for a well-formed e-mail address with a password that is not
    empty; when either is missing or the address is malformed it sends
    nothing and leaves a message. *)
Theorem handleAuth_validates_first
    (service : Auth.Request -> option Auth.AuthError) (isLogin : bool)
    (email password : list N) :
  length (snd (Auth.handleAuth service isLogin email password)) <= 1
  /\ Forall (fun request =>
               request = (if isLogin then Auth.SignIn email password
                          else Auth.CreateUser email password)
               /\ Auth.isValidEmail email = true
               /\ password <> [])
       (snd (Auth.handleAuth service isLogin email password))
  /\ (email = [] \/ password = [] \/ Auth.isValidEmail email = false ->
      snd (Auth.handleAuth service isLogin email password) = []
      /\ fst (Auth.handleAuth service isLogin email password) <> "").
Proof.
  unfold Auth.handleAuth.
  destruct email as [|e email]; [|destruct password as [|q password]].
  - cbn. repeat split; auto; discriminate.
  - cbn. repeat split; auto; discriminate.
  - destruct (Auth.isValidEmail (e :: email)) eqn:V; cbn [negb].
    + assert (Hreq : forall request : Auth.Request,
                request = (if isLogin
                           then Auth.SignIn (e :: email) (q :: password)
                           else Auth.CreateUser (e :: email) (q :: password)) ->
                Forall (fun request0 =>
                          request0 = (if isLogin
                                      then Auth.SignIn (e :: email)
                                             (q :: password)
                                      else Auth.CreateUser (e :: email)
                                             (q :: password))
                          /\ true = true /\ q :: password <> [])
                  [request]).
      { intros request ->. repeat constructor. discriminate. }
      destruct (service _); cbn; (split; [lia|]);
        (split; [now apply Hreq|]); intros [H|[H|H]]; discriminate.
    + cbn. repeat split; auto; discriminate.
Qed.

(** ** The rotation on the store *)

Lemma nth_error_alloc_old (h : Heap.Store) a xs ys :
  nth_error h a = Some xs -> nth_error (h ++ [ys]) a = Some xs.
Proof.
  intros H. rewrite nth_error_app1; [assumption|].
  apply nth_error_Some. congruence.
Qed.

Lemma nth_error_alloc_new (h : Heap.Store) ys :
  nth_error (h ++ [ys]) (length h) = Some ys.
Proof. rewrite nth_error_app2, Nat.sub_diag; [reflexivity | lia]. Qed.

Lemma update_eq r xs : forall (h : Heap.Store) ys,
  nth_error h r = Some ys -> nth_error (Heap.update r xs h) r = Some xs.
Proof.
  induction r as [|r IH]; intros [|zs h] ys H; try discriminate; simpl.
  - reflexivity.
  - now apply IH with ys.
Qed.

Lemma update_neq r xs : forall (h : Heap.Store) a,
  a <> r -> nth_error (Heap.update r xs h) a = nth_error h a.
Proof.
  induction r as [|r IH]; intros [|zs h] [|a] H; simpl; try reflexivity.
  - contradiction.
  - apply IH. congruence.
Qed.

Lemma preserved_refl h : preserved h h.
Proof. intros a xs H. exact H. Qed.

Lemma preserved_alloc h0 h ys : preserved h0 h -> preserved h0 (h ++ [ys]).
Proof. intros H a xs Ha. apply nth_error_alloc_old. now apply H. Qed.

Lemma preserved_update h0 h r xs :
  preserved h0 h -> length h0 <= r -> preserved h0 (Heap.update r xs h).
Proof.
  intros H Hr a ys Ha. rewrite update_neq; [now apply H|].
  assert (a < length h0) by (apply nth_error_Some; congruence). lia.
Qed.

Lemma preserved_trans h0 h1 h2 :
  preserved h0 h1 -> preserved h1 h2 -> preserved h0 h2.
Proof. intros H1 H2 a xs Ha. now apply H2, H1. Qed.

Lemma wp_conseq {A} (c : Heap.M A) (Q Q' : A -> Heap.Store -> Prop) h :
  wp c Q h -> (forall a h', Q a h' -> Q' a h') -> wp c Q' h.
Proof.
  unfold wp. destruct (c h) as [[a h']|]; [|trivial]. intros H HQ. now apply HQ.
Qed.

Lemma wp_ret {A} (a : A) (Q : A -> Heap.Store -> Prop) h :
  Q a h -> wp (Heap.ret a) Q h.
Proof. trivial. Qed.

Lemma wp_bind {A B} (c : Heap.M A) (k : A -> Heap.M B) Q h :
  wp c (fun a h' => wp (k a) Q h') h -> wp (Heap.bind c k) Q h.
Proof.
  unfold wp, Heap.bind. destruct (c h) as [[a h']|]; trivial.
Qed.

Lemma wp_alloc xs (Q : Heap.ref -> Heap.Store -> Prop) h :
  Q (length h) (h ++ [xs]) -> wp (Heap.alloc xs) Q h.
Proof. trivial. Qed.

Lemma wp_read r xs (Q : list Photo -> Heap.Store -> Prop) h :
  nth_error h r = Some xs -> Q xs h -> wp (Heap.read r) Q h.
Proof. unfold wp, Heap.read. now intros ->. Qed.

Lemma wp_write r xs ys (Q : unit -> Heap.Store -> Prop) h :
  nth_error h r = Some ys -> Q tt (Heap.update r xs h) ->
  wp (Heap.write r xs) Q h.
Proof. unfold wp, Heap.write. now intros ->. Qed.

Lemma wp_filter a f g xs (Q : Heap.ref -> Heap.Store -> Prop) h :
  nth_error h a = Some xs ->
  (forall x, f x = Normal (g x)) ->
  Q (length h) (h ++ [filter g xs]) ->
  wp (HeapArray.filter a f) Q h.
Proof.
  intros Ha Hf HQ. unfold HeapArray.filter.
  apply wp_bind, (wp_read a xs); [assumption|].
  apply wp_bind. unfold wp at 1, Heap.lift.
  rewrite (filterM_pure f g xs Hf). now apply wp_alloc.
Qed.

Lemma wp_slice a n xs (Q : Heap.ref -> Heap.Store -> Prop) h :
  nth_error h a = Some xs ->
  Q (length h) (h ++ [firstn n xs]) ->
  wp (HeapArray.slice a n) Q h.
Proof.
  intros Ha HQ. unfold HeapArray.slice.
  apply wp_bind, (wp_read a xs); [assumption|]. now apply wp_alloc.
Qed.

Lemma wp_length a xs (Q : nat -> Heap.Store -> Prop) h :
  nth_error h a = Some xs -> Q (length xs) h -> wp (HeapArray.length a) Q h.
Proof.
  intros Ha HQ. unfold HeapArray.length.
  apply wp_bind, (wp_read a xs); [assumption|]. now apply wp_ret.
Qed.

Lemma wp_flatMapTags a xs (Q : list string -> Heap.Store -> Prop) h :
  nth_error h a = Some xs -> Q (players xs) h ->
  wp (HeapArray.flatMapTags a) Q h.
Proof.
  intros Ha HQ. unfold HeapArray.flatMapTags.
  apply wp_bind, (wp_read a xs); [assumption|]. now apply wp_ret.
Qed.

Lemma wp_mapId a xs (Q : list string -> Heap.Store -> Prop) h :
  nth_error h a = Some xs -> Q (map id xs) h -> wp (HeapArray.mapId a) Q h.
Proof.
  intros Ha HQ. unfold HeapArray.mapId.
  apply wp_bind, (wp_read a xs); [assumption|]. now apply wp_ret.
Qed.

Lemma wp_pushAll a b xs items (Q : unit -> Heap.Store -> Prop) h :
  nth_error h a = Some xs -> nth_error h b = Some items ->
  Q tt (Heap.update a (xs ++ items) h) ->
  wp (HeapArray.pushAll a b) Q h.
Proof.
  intros Ha Hb HQ. unfold HeapArray.pushAll.
  apply wp_bind, (wp_read b items); [assumption|].
  apply wp_bind, (wp_read a xs); [assumption|].
  now apply (wp_write a _ xs).
Qed.

Lemma wp_pushFirst a b xs items (Q : unit -> Heap.Store -> Prop) h :
  nth_error h a = Some xs -> nth_error h b = Some items ->
  Q tt (match items with
        | first :: _ => Heap.update a (xs ++ [first]) h
        | [] => h
        end) ->
  wp (HeapArray.pushFirst a b) Q h.
Proof.
  intros Ha Hb HQ. unfold HeapArray.pushFirst.
  apply wp_bind, (wp_read b items); [assumption|].
  destruct items as [|first rest]; [now apply wp_ret|].
  apply wp_bind, (wp_read a xs); [assumption|].
  now apply (wp_write a _ xs).
Qed.

Lemma wp_sort a cmp xs (Q : Heap.ref -> Heap.Store -> Prop) h :
  nth_error h a = Some xs ->
  Q a (Heap.update a (Array_sort cmp xs) h) ->
  wp (HeapArray.sort a cmp) Q h.
Proof.
  intros Ha HQ. unfold HeapArray.sort.
  apply wp_bind, (wp_read a xs); [assumption|].
  apply wp_bind, (wp_write a _ xs); [assumption|]. now apply wp_ret.
Qed.

Lemma wp_forEach (I : list string -> Heap.Store -> Prop) f
    (Q : unit -> Heap.Store -> Prop) :
  (forall x rest h, I (x :: rest) h -> wp (f x) (fun _ h' => I rest h') h) ->
  (forall h, I [] h -> Q tt h) ->
  forall xs h, I xs h -> wp (HeapArray.forEach xs f) Q h.
Proof.
  intros Hstep Hend. induction xs as [|x xs IH]; intros h HI; simpl.
  - apply wp_ret. now apply Hend.
  - apply wp_bind.
    apply (wp_conseq _ (fun _ h' => I xs h')); [apply Hstep, HI|].
    intros _ h' HI'. now apply IH.
Qed.

Lemma getRotatedPhotosIn_spec photos ps (h : Heap.Store) :
  nth_error h photos = Some ps ->
  wp (getRotatedPhotosIn photos)
    (fun r h' =>
       nth_error h' r = Some (Array_sort byNewest (selection ps))
       /\ preserved h h' /\ length h <= r) h.
Proof.
  intros Hps. unfold getRotatedPhotosIn.
  apply wp_bind, (wp_filter photos _ isPublic ps);
    [assumption | reflexivity |].
  set (pp := filter isPublic ps).
  set (h1 := h ++ [pp]). set (pubR := length h).
  assert (Hpub : nth_error h1 pubR = Some pp) by apply nth_error_alloc_new.
  assert (Hh1 : preserved h h1) by apply preserved_alloc, preserved_refl.
  apply wp_bind, (wp_length pubR pp); [assumption|].
  destruct (Nat.eqb_spec (length pp) 0) as [E|E].
  { apply wp_alloc. split; [|split].
    - rewrite nth_error_alloc_new. f_equal.
      apply length_zero_iff_nil in E. unfold selection. fold pp.
      rewrite E. reflexivity.
    - now apply preserved_alloc.
    - unfold h1. rewrite length_app. unfold pubR. lia. }
  apply wp_bind, (wp_flatMapTags pubR pp); [assumption|].
  apply wp_bind, (wp_filter pubR _ isTeam pp);
    [assumption | apply guard_length_ge |].
  set (team := filter isTeam pp).
  set (h2 := h1 ++ [team]). set (teamR := length h1).
  assert (Hteam : nth_error h2 teamR = Some team)
    by apply nth_error_alloc_new.
  apply wp_bind, (wp_filter pubR _ isIndividual pp);
    [now apply nth_error_alloc_old | apply guard_length_lt |].
  set (ind := filter isIndividual pp).
  set (h3 := h2 ++ [ind]). set (indR := length h2).
  assert (Hind : nth_error h3 indR = Some ind) by apply nth_error_alloc_new.
  assert (Hteam3 : nth_error h3 teamR = Some team)
    by now apply nth_error_alloc_old.
  assert (Hh3 : preserved h h3) by now do 2 apply preserved_alloc.
  assert (Hlen : length h <= length h3).
  { unfold h3, h2, h1. rewrite !length_app. lia. }
  apply wp_bind, wp_alloc.
  set (rot := length h3). set (h4 := h3 ++ [[]]).
  apply wp_bind, (wp_length teamR team);
    [now apply nth_error_alloc_old|].
  apply wp_bind.
  apply (wp_conseq _ (fun _ h6 =>
           preserved h3 h6 /\ nth_error h6 rot = Some (seed pp))).
  { destruct (0 <? length team) eqn:T.
    - apply wp_bind, (wp_slice teamR _ team);
        [now apply nth_error_alloc_old|].
      apply (wp_pushAll rot (length h4) []
               (firstn (Nat.min (length team) 6) team));
        [apply nth_error_alloc_old, nth_error_alloc_new
        | apply nth_error_alloc_new |].
      split.
      + apply preserved_update; [|unfold rot; lia].
        apply preserved_alloc, preserved_alloc, preserved_refl.
      + rewrite (update_eq rot _ _ []);
          [|apply nth_error_alloc_old, nth_error_alloc_new].
        unfold seed. fold team. f_equal. apply (slice0_min team 6).
    - apply wp_ret. split; [apply preserved_alloc, preserved_refl|].
      unfold h4, rot. rewrite nth_error_alloc_new. f_equal.
      apply Nat.ltb_ge in T. unfold seed. fold team.
      destruct team; [reflexivity | simpl in T; lia]. }
  intros _ h6 [Hp6 Hrot6].
  apply wp_bind, (wp_flatMapTags rot (seed pp)); [assumption|].
  change (filter (fun player => negb (Set_has (players (seed pp)) player))
            (Array_from_Set (players pp)))
    with (remaining pp).
  apply wp_bind.
  apply (wp_conseq _ (fun _ h7 =>
           preserved h3 h7
           /\ nth_error h7 rot
              = Some (coverage ind (remaining pp) (seed pp)))).
  { apply (wp_forEach (fun rest hi =>
             preserved h3 hi
             /\ exists R, nth_error hi rot = Some R
                          /\ coverage ind rest R
                             = coverage ind (remaining pp) (seed pp))).
    - intros x rest hi (Hp & R & HR & Hc).
      apply wp_bind, (wp_filter indR _ (hasPlayer x) ind);
        [apply Hp, Hind | apply guard_includes |].
      apply (wp_pushFirst rot (length hi) R (filter (hasPlayer x) ind));
        [now apply nth_error_alloc_old | apply nth_error_alloc_new |].
      unfold coverage in Hc. cbn [fold_left] in Hc. unfold coverStep in Hc.
      destruct (filter (hasPlayer x) ind) as [|first others].
      + split; [now apply preserved_alloc|]. exists R.
        split; [now apply nth_error_alloc_old | exact Hc].
      + split.
        * apply preserved_update; [now apply preserved_alloc|].
          unfold rot. lia.
        * exists (R ++ [first]).
          split; [|exact Hc].
          apply update_eq with R. now apply nth_error_alloc_old.
    - intros hi (Hp & R & HR & Hc). split; [assumption|].
      simpl in Hc. now subst R.
    - split; [assumption|]. exists (seed pp). split; [assumption|reflexivity]. }
  intros _ h7 [Hp7 Hrot7].
  set (W := coverage ind (remaining pp) (seed pp)) in *.
  apply wp_bind, (wp_length rot W); [assumption|].
  apply wp_bind.
  apply (wp_conseq _ (fun _ h8 =>
           preserved h3 h8 /\ nth_error h8 rot = Some (fill ind W))).
  { unfold fill. destruct (length W <? maxPhotos).
    - apply wp_bind, (wp_mapId rot W); [assumption|].
      apply wp_bind,
        (wp_filter indR _
           (fun photo => negb (Set_has (map id W) (id photo))) ind);
        [apply Hp7, Hind | reflexivity |].
      apply wp_bind,
        (wp_slice (length h7) _
           (filter (fun photo => negb (Set_has (map id W) (id photo)))
              ind));
        [apply nth_error_alloc_new|].
      eapply wp_pushAll;
        [apply nth_error_alloc_old, nth_error_alloc_old, Hrot7
        | apply nth_error_alloc_new |].
      split.
      + apply preserved_update; [|unfold rot; lia].
        now do 2 apply preserved_alloc.
      + apply update_eq with W.
        now do 2 apply nth_error_alloc_old.
    - apply wp_ret. split; assumption. }
  intros _ h8 [Hp8 Hrot8].
  apply (wp_sort rot byNewest (fill ind W)); [assumption|].
  split; [|split].
  - now apply update_eq with (fill ind W).
  - apply preserved_trans with h3; [assumption|].
    apply preserved_update; [assumption | unfold rot; lia].
  - assumption.
Qed.

Lemma run_from_snapshot photos ps (h : Heap.Store) :
  nth_error h photos = Some ps ->
  exists r h',
    getRotatedPhotosIn photos h = Normal (r, h')
    /\ nth_error h' r = Some (Array_sort byNewest (selection ps))
    /\ preserved h h' /\ length h <= r.
Proof.
  intros Hps. pose proof (getRotatedPhotosIn_spec photos ps h Hps) as H.
  unfold wp in H.
  destruct (getRotatedPhotosIn photos h) as [[r h']|]; [|destruct H].
  exists r, h'. split; [reflexivity | exact H].
Qed.

(** C9. Two runs of the rotation on the same snapshot yield identical
    outputs, and nothing is carried over between calls: run on a store of
    arrays, with [photos] the address of the snapshot, the function
    returns normally, changes no array that existed before the call (the
    snapshot included, though it sorts and pushes in place), and returns a
    new array; a second run from the store the first one left returns an
    array of the same content and leaves the first result alone. The
    content is that of the pure selection on the snapshot's content, so
    any store holding the same snapshot at any address gives it too. *)
Theorem two_runs_same_rotation (photos : Heap.ref) (h : Heap.Store)
    (ps : list Photo) :
  nth_error h photos = Some ps ->
  exists r1 h1 r2 h2 out,
    getRotatedPhotosIn photos h = Normal (r1, h1)
    /\ getRotatedPhotosIn photos h1 = Normal (r2, h2)
    /\ nth_error h1 r1 = Some out
    /\ nth_error h2 r2 = Some out
    /\ nth_error h2 r1 = Some out
    /\ r1 <> r2
    /\ preserved h h1 /\ preserved h1 h2
    /\ nth_error h2 photos = Some ps
    /\ getRotatedPhotos ps = Normal out
    /\ forall photos' h',
         nth_error h' photos' = Some ps ->
         exists r' h'',
           getRotatedPhotosIn photos' h' = Normal (r', h'')
           /\ nth_error h'' r' = Some out.
Proof.
  intros Hps.
  destruct (run_from_snapshot photos ps h Hps)
    as (r1 & h1 & E1 & Hout1 & Hp1 & Hr1).
  pose proof (Hp1 _ _ Hps) as Hps1.
  destruct (run_from_snapshot photos ps h1 Hps1)
    as (r2 & h2 & E2 & Hout2 & Hp2 & Hr2).
  exists r1, h1, r2, h2, (Array_sort byNewest (selection ps)).
  repeat split; try assumption.
  - now apply Hp2.
  - assert (r1 < length h1) by (apply nth_error_Some; congruence). lia.
  - now apply Hp2.
  - apply getRotatedPhotos_eq.
  - intros photos' h' Hps'.
    destruct (run_from_snapshot photos' ps h' Hps')
      as (r' & h'' & E' & Hout' & _).
    now exists r', h''.
Qed.

Lemma two_runs_same_rotation_witness :
  exists r1 h1 r2 h2 out,
    getRotatedPhotosIn 1 sampleStore = Normal (r1, h1)
    /\ getRotatedPhotosIn 1 h1 = Normal (r2, h2)
    /\ nth_error h1 r1 = Some out
    /\ nth_error h2 r2 = Some out
    /\ nth_error h2 r1 = Some out
    /\ r1 <> r2
    /\ preserved sampleStore h1 /\ preserved h1 h2
    /\ nth_error h2 1 = Some [duoPhoto; oldPhoto; pendingPhoto]
    /\ getRotatedPhotos [duoPhoto; oldPhoto; pendingPhoto] = Normal out
    /\ forall photos' h',
         nth_error h' photos' = Some [duoPhoto; oldPhoto; pendingPhoto] ->
         exists r' h'',
           getRotatedPhotosIn photos' h' = Normal (r', h'')
           /\ nth_error h'' r' = Some out.
Proof.
  apply (two_runs_same_rotation 1 sampleStore
           [duoPhoto; oldPhoto; pendingPhoto]).
  reflexivity.
Defined.
